(** * PipeAndCaret: the HL7 v2 parser and serializer

    A shallow embedding of [src/hl7/parse.ts], [src/hl7/serialize.ts] and
    [src/hl7/fieldReparse.ts], with the properties of the parse/serialize
    pair stated and proved over it.

    Strings are sequences of characters ([list ascii]); a character stands
    for one code unit in the range 0..255.  Numbers that the code uses as
    positions or field indices are integers ([Z]), so that the value [-1]
    returned by [indexOf] and the clamping done by [substring] are written
    out; their arithmetic is exact, as that of the source's numbers is on
    the safe integers (up to 2^53 - 1 in absolute value).  Arrays are
    lists. *)

From Stdlib Require Import List Ascii String ZArith Lia Bool Arith.
From Stdlib Require Import Permutation Sorted.
Import ListNotations.

Open Scope Z_scope.

Definition jsstring : Type := list ascii.

(** String literals of the source. *)
Definition str (s : string) : jsstring := list_ascii_of_string s.

(** ** The string and array built-ins the code calls *)

Module JS.

Definition CR : ascii := ascii_of_nat 13.
Definition LF : ascii := ascii_of_nat 10.

(** [s.length] *)
Definition length (s : jsstring) : Z := Z.of_nat (List.length s).

(** Positions are clamped to [0 .. s.length]. *)
Definition clamp (s : jsstring) (n : Z) : nat :=
  Z.to_nat (Z.min (Z.max n 0) (length s)).

(** [s.substring(start, end)]: both positions are clamped and swapped when
    [start > end]. *)
Definition substring (s : jsstring) (start end_ : Z) : jsstring :=
  let a := clamp s start in
  let b := clamp s end_ in
  firstn (Nat.max a b - Nat.min a b) (skipn (Nat.min a b) s).

(** [s.substring(start)]: the end defaults to [s.length]. *)
Definition substringFrom (s : jsstring) (start : Z) : jsstring :=
  substring s start (length s).

(** [s.startsWith(pre)] *)
Fixpoint startsWith (s pre : jsstring) {struct pre} : bool :=
  match pre with
  | [] => true
  | p :: pre' =>
      match s with
      | [] => false
      | c :: s' => Ascii.eqb c p && startsWith s' pre'
      end
  end.

(** First position at which [needle] occurs in [s]. *)
Fixpoint search (s needle : jsstring) : option nat :=
  if startsWith s needle then Some 0%nat
  else match s with
       | [] => None
       | _ :: s' => option_map S (search s' needle)
       end.

(** [s.indexOf(needle, position)], [-1] when there is no occurrence. *)
Definition indexOf (s needle : jsstring) (position : Z) : Z :=
  let start := clamp s position in
  match search (skipn start s) needle with
  | Some k => Z.of_nat (start + k)
  | None => -1
  end.

(** [s[i]]: a one-character string, or [undefined] ([None]). *)
Definition at_ (s : jsstring) (i : nat) : option jsstring :=
  option_map (fun c => [c]) (nth_error s i).

(** [x || d] for [x] a one-character string or [undefined]. *)
Definition orElse (x : option jsstring) (d : jsstring) : jsstring :=
  match x with
  | Some v => v
  | None => d
  end.

(** [pieces.join(sep)] *)
Fixpoint join (sep : jsstring) (pieces : list jsstring) : jsstring :=
  match pieces with
  | [] => []
  | p :: rest =>
      match rest with
      | [] => p
      | _ :: _ => p ++ sep ++ join sep rest
      end
  end.

(** Puts a character in front of the first piece. *)
Definition extend (c : ascii) (pieces : list jsstring) : list jsstring :=
  match pieces with
  | [] => [[c]]
  | p :: rest => (c :: p) :: rest
  end.

(** The scan of [s.split(sep)] for a non-empty [sep]: [skip] counts the
    characters of a separator occurrence that are still to be passed. *)
Fixpoint split_scan (sep : jsstring) (skip : nat) (s : jsstring)
  : list jsstring :=
  match s with
  | [] => [[]]
  | c :: s' =>
      match skip with
      | S k => split_scan sep k s'
      | O =>
          if startsWith s sep
          then [] :: split_scan sep (List.length sep - 1) s'
          else extend c (split_scan sep 0 s')
      end
  end.

(** [s.split(sep)]: with an empty separator the characters of [s], else
    the pieces between the occurrences of [sep], found from the left. *)
Definition split (s sep : jsstring) : list jsstring :=
  match sep with
  | [] => map (fun c => [c]) s
  | _ :: _ => split_scan sep 0 s
  end.

(** White space and line terminators, the characters [trim] removes. *)
Definition isWhiteSpace (c : ascii) : bool :=
  let n := nat_of_ascii c in
  (Nat.leb 9 n && Nat.leb n 13) || Nat.eqb n 32 || Nat.eqb n 160.

Fixpoint trimStart (s : jsstring) : jsstring :=
  match s with
  | [] => []
  | c :: s' => if isWhiteSpace c then trimStart s' else s
  end.

Definition trimEnd (s : jsstring) : jsstring := rev (trimStart (rev s)).

(** [s.trim()] *)
Definition trim (s : jsstring) : jsstring := trimEnd (trimStart s).

(** [s.replace(/\r\n/g, '\r')] *)
Fixpoint replaceCRLF (s : jsstring) : jsstring :=
  match s with
  | [] => []
  | c :: s' =>
      match s' with
      | c' :: s'' =>
          if Ascii.eqb c CR && Ascii.eqb c' LF
          then CR :: replaceCRLF s''
          else c :: replaceCRLF s'
      | [] => [c]
      end
  end.

(** [s.replace(/c/g, by)] for one character [c]. *)
Definition replaceChar (c : ascii) (by_ : jsstring) (s : jsstring)
  : jsstring :=
  flat_map (fun x => if Ascii.eqb x c then by_ else [x]) s.

(** [for (let i = lo; i < hi; i++) acc = body(i, acc)] *)
Definition for_range {A : Type} (lo hi : Z) (body : Z -> A -> A) (acc : A)
  : A :=
  fold_left (fun a k => body (lo + Z.of_nat k) a)
            (seq 0 (Z.to_nat (hi - lo))) acc.

(** [for (let i = start; i < l.length + start; i++) out.push(f(i, l[i - start]))] *)
Fixpoint mapi_from {A B : Type} (start : Z) (f : Z -> A -> B) (l : list A)
  : list B :=
  match l with
  | [] => []
  | x :: l' => f start x :: mapi_from (start + 1) f l'
  end.

(** Stable insertion by a numeric key, and the sort built on it:
    [l.sort((a, b) => key(a) - key(b))]. *)
Fixpoint insert {A : Type} (key : A -> Z) (x : A) (l : list A) : list A :=
  match l with
  | [] => [x]
  | y :: l' => if key x <=? key y then x :: l else y :: insert key x l'
  end.

Fixpoint sort {A : Type} (key : A -> Z) (l : list A) : list A :=
  match l with
  | [] => []
  | x :: l' => insert key x (sort key l')
  end.

(** [s.endsWith(suffix)] *)
Definition endsWith (s suffix : jsstring) : bool :=
  startsWith (rev s) (rev suffix).

(** [s.slice(0, -1)]: [s] without its last character. *)
Definition dropLast (s : jsstring) : jsstring := removelast s.

(** [l[i]] for a number [i]: [undefined] ([None]) outside the array. *)
Definition nth {A : Type} (l : list A) (i : Z) : option A :=
  if i <? 0 then None else nth_error l (Z.to_nat i).

(** Position of the first element that satisfies [p]. *)
Fixpoint firstIndex {A : Type} (p : A -> bool) (l : list A) : option nat :=
  match l with
  | [] => None
  | x :: l' => if p x then Some 0%nat else option_map S (firstIndex p l')
  end.

(** [l.findIndex(p)], [-1] when no element satisfies [p]. *)
Definition findIndex {A : Type} (p : A -> bool) (l : list A) : Z :=
  match firstIndex p l with
  | Some k => Z.of_nat k
  | None => -1
  end.

(** [l[i] = x] for a position [i] inside the array. *)
Fixpoint setAt {A : Type} (l : list A) (i : nat) (x : A) : list A :=
  match l, i with
  | [], _ => []
  | _ :: l', O => x :: l'
  | y :: l', S k => y :: setAt l' k x
  end.

(** [while (l.length <= i) l.push(x)] *)
Definition padTo {A : Type} (x : A) (i : Z) (l : list A) : list A :=
  Nat.iter (Z.to_nat (i + 1 - Z.of_nat (List.length l)))
           (fun acc => acc ++ [x]) l.

End JS.

(** ** The data model ([src/app/types.ts]) *)

(** The [segment] delimiter has the literal type ['\r'], so it is not a
    field of the record. *)
Record HL7Delimiters : Type := {
  field : jsstring;
  repeat : jsstring;
  component : jsstring;
  subcomponent : jsstring;
  escape : jsstring
}.

Definition segment (_ : HL7Delimiters) : jsstring := [JS.CR].

Record SubcomponentNode : Type := { value : jsstring }.
Record ComponentNode : Type := { subcomponents : list SubcomponentNode }.
Record RepeatNode : Type := { components : list ComponentNode }.
Record FieldNode : Type := { index : Z; repeats : list RepeatNode }.
Record SegmentNode : Type := { name : jsstring; fields : list FieldNode }.
Record HL7Message : Type := {
  delimiters : HL7Delimiters;
  segments : list SegmentNode
}.

Record ParseError : Type := {
  message : jsstring;
  segmentIndex : option Z;
  segmentName : option jsstring;
  fieldIndex : option Z;
  snippet : option jsstring
}.

Inductive ParseResult : Type :=
| Success (m : HL7Message)
| Failure (error : ParseError).

(** ** The parser ([src/hl7/parse.ts]) *)

(** The backslash, the default escape character. *)
Definition backslash : ascii := ascii_of_nat 92.

Definition normalizeLineEndings (input : jsstring) : jsstring :=
  JS.replaceChar JS.LF [JS.CR] (JS.replaceCRLF input).

(** [null] is [None].  After the length check [mshLine[3]] and, in the
    last branch, [encodingChars[0..3]] are defined; the [None] of those
    matches is never reached. *)
Definition extractDelimiters (mshLine : jsstring) : option HL7Delimiters :=
  if negb (JS.startsWith mshLine (str "MSH")) || (JS.length mshLine <? 8)
  then None
  else
    match JS.at_ mshLine 3 with
    | None => None
    | Some fieldDelim =>
        let encodingChars :=
          JS.substring mshLine 4 (JS.indexOf mshLine fieldDelim 4) in
        if JS.length encodingChars <? 4
        then Some {| field := fieldDelim;
                     component := JS.orElse (JS.at_ encodingChars 0) (str "^");
                     repeat := JS.orElse (JS.at_ encodingChars 1) (str "~");
                     escape := JS.orElse (JS.at_ encodingChars 2) [backslash];
                     subcomponent :=
                       JS.orElse (JS.at_ encodingChars 3) (str "&") |}
        else
          match JS.at_ encodingChars 0, JS.at_ encodingChars 1,
                JS.at_ encodingChars 2, JS.at_ encodingChars 3 with
          | Some c, Some r, Some e, Some s =>
              Some {| field := fieldDelim; component := c; repeat := r;
                      escape := e; subcomponent := s |}
          | _, _, _, _ => None
          end
    end.

(** The three nested [for ... of] loops push one node per piece. *)
Definition parseField (fieldString : jsstring) (delimiters : HL7Delimiters)
  (fieldIndex : Z) : FieldNode :=
  {| index := fieldIndex;
     repeats :=
       map (fun repeatStr =>
         {| components :=
              map (fun componentStr =>
                {| subcomponents :=
                     map (fun subStr => {| value := subStr |})
                         (JS.split componentStr (subcomponent delimiters)) |})
                (JS.split repeatStr (component delimiters)) |})
         (JS.split fieldString (repeat delimiters)) |}.

(** A field holding one repeat, one component and one subcomponent
    ([createSimpleField] of [fieldReparse.ts]). *)
Definition createSimpleField (value : jsstring) (fieldIndex : Z) : FieldNode :=
  {| index := fieldIndex;
     repeats :=
       [ {| components := [ {| subcomponents := [ {| value := value |} ] |} ] |} ]
  |}.

Definition parseMSHSegment (mshLine : jsstring) (delimiters : HL7Delimiters)
  : SegmentNode :=
  let msh1 := createSimpleField (field delimiters) 1 in
  let afterDelim := JS.substringFrom mshLine 4 in
  let firstDelimPos := JS.indexOf afterDelim (field delimiters) 0 in
  let encodingChars :=
    if 0 <=? firstDelimPos
    then JS.substring afterDelim 0 firstDelimPos
    else afterDelim in
  let msh2 := createSimpleField encodingChars 2 in
  let others :=
    if 0 <=? firstDelimPos
    then
      let remainingFields :=
        JS.split (JS.substringFrom afterDelim (firstDelimPos + 1))
                 (field delimiters) in
      JS.mapi_from 0 (fun i s => parseField s delimiters (i + 3))
                   remainingFields
    else [] in
  {| name := str "MSH"; fields := msh1 :: msh2 :: others |}.

(** The test [/^[A-Z][A-Z0-9]{2}$/] *)
Definition isUpper (c : ascii) : bool :=
  let n := nat_of_ascii c in Nat.leb 65 n && Nat.leb n 90.

Definition isDigit (c : ascii) : bool :=
  let n := nat_of_ascii c in Nat.leb 48 n && Nat.leb n 57.

Definition segmentNamePattern (name : jsstring) : bool :=
  match name with
  | [a; b; c] =>
      isUpper a && (isUpper b || isDigit b) && (isUpper c || isDigit c)
  | _ => false
  end.

(** The double quote of the message template. *)
Definition dquote : ascii := ascii_of_nat 34.

(** The result is a segment ([inl]) or an error ([inr]); the caller tells
    them apart by the [message] property. *)
Definition parseSegment (segmentLine : jsstring) (delimiters : HL7Delimiters)
  (segmentIndex : Z) : SegmentNode + ParseError :=
  let parts := JS.split segmentLine (field delimiters) in
  match parts with
  | [] =>
      inr {| message := str "Empty or invalid segment";
             segmentIndex := Some segmentIndex;
             segmentName := None;
             fieldIndex := None;
             snippet := Some (JS.substring segmentLine 0 50) |}
  | name :: rest =>
      if JS.length name =? 0
      then inr {| message := str "Empty or invalid segment";
                  segmentIndex := Some segmentIndex;
                  segmentName := None;
                  fieldIndex := None;
                  snippet := Some (JS.substring segmentLine 0 50) |}
      else if negb (segmentNamePattern name)
      then inr {| message :=
                    str "Invalid segment name: " ++ [dquote] ++ name ++ [dquote];
                  segmentIndex := Some segmentIndex;
                  segmentName := Some name;
                  fieldIndex := None;
                  snippet := Some (JS.substring segmentLine 0 50) |}
      else inl {| name := name;
                  fields :=
                    JS.mapi_from 1 (fun i s => parseField s delimiters i) rest |}
  end.

(** The loop over the lines after the header: it returns at the first
    line [parseSegment] rejects. *)
Fixpoint parseSegments (segmentLines : list jsstring)
  (delimiters : HL7Delimiters) (i : Z) : list SegmentNode + ParseError :=
  match segmentLines with
  | [] => inl []
  | line :: rest =>
      match parseSegment line delimiters i with
      | inr e => inr e
      | inl seg =>
          match parseSegments rest delimiters (i + 1) with
          | inr e => inr e
          | inl segs => inl (seg :: segs)
          end
      end
  end.

(** The lines the parser works on. *)
Definition segmentLinesOf (rawInput : jsstring) : list jsstring :=
  let normalized := normalizeLineEndings (JS.trim rawInput) in
  filter (fun line => 0 <? JS.length line) (JS.split normalized [JS.CR]).

Definition parseHL7 (rawInput : jsstring) : ParseResult :=
  match segmentLinesOf rawInput with
  | [] =>
      Failure {| message := str "No segments found in input";
                 segmentIndex := None; segmentName := None;
                 fieldIndex := None; snippet := None |}
  | mshLine :: others =>
      if negb (JS.startsWith mshLine (str "MSH"))
      then Failure {| message := str "HL7 message must start with MSH segment";
                      segmentIndex := None; segmentName := None;
                      fieldIndex := None;
                      snippet := Some (JS.substring mshLine 0 50) |}
      else
        match extractDelimiters mshLine with
        | None =>
            Failure {| message :=
                         str "Could not extract delimiters from MSH segment";
                       segmentIndex := Some 0;
                       segmentName := Some (str "MSH");
                       fieldIndex := None;
                       snippet := Some (JS.substring mshLine 0 50) |}
        | Some delimiters =>
            match parseSegments others delimiters 1 with
            | inr e => Failure e
            | inl segs =>
                Success {| delimiters := delimiters;
                           segments := parseMSHSegment mshLine delimiters :: segs |}
            end
        end
  end.

Definition parseFieldString (fieldString : jsstring)
  (delimiters : HL7Delimiters) (fieldIndex : Z) : FieldNode :=
  parseField fieldString delimiters fieldIndex.

(** ** The serializer ([src/hl7/serialize.ts]) *)

Definition serializeSubcomponents (components : ComponentNode)
  (delimiters : HL7Delimiters) : jsstring :=
  JS.join (subcomponent delimiters)
          (map (fun sub => value sub) (subcomponents components)).

Definition serializeComponents (repeat_ : RepeatNode)
  (delimiters : HL7Delimiters) : jsstring :=
  JS.join (component delimiters)
          (map (fun comp => serializeSubcomponents comp delimiters)
               (components repeat_)).

Definition serializeRepeats (field_ : FieldNode) (delimiters : HL7Delimiters)
  : jsstring :=
  JS.join (repeat delimiters)
          (map (fun rep => serializeComponents rep delimiters)
               (repeats field_)).

Definition serializeField (field_ : FieldNode) (delimiters : HL7Delimiters)
  : jsstring :=
  serializeRepeats field_ delimiters.

(** The loop shared by both segment serializers: for each field, in order,
    one bare field delimiter per skipped index, then the delimiter and the
    field.  The state is [(result, lastIndex)].  The counter of the inner
    loop ([lastIndex + 1], [i++]) is computed on integers, which is the
    arithmetic of the source's numbers as long as the indices are safe
    integers ([isSafeInteger] below); beyond them a number is rounded to 53
    significant bits. *)
Definition emitLoop (delimiters : HL7Delimiters) (fs : list FieldNode)
  (start : jsstring * Z) : jsstring * Z :=
  fold_left
    (fun '(result, lastIndex) field_ =>
       let result :=
         JS.for_range (lastIndex + 1) (index field_)
           (fun _ result => result ++ field delimiters) result in
       (result ++ (field delimiters ++ serializeField field_ delimiters),
        index field_))
    fs start.

Definition serializeMSHSegment (segment_ : SegmentNode)
  (delimiters : HL7Delimiters) : jsstring :=
  let result := str "MSH" ++ field delimiters in
  let msh2Field := find (fun f => index f =? 2) (fields segment_) in
  let result :=
    match msh2Field with
    | Some f => result ++ serializeField f delimiters
    | None =>
        result ++ (component delimiters ++ repeat delimiters
                   ++ escape delimiters ++ subcomponent delimiters)
    end in
  let otherFields :=
    JS.sort index (filter (fun f => 2 <? index f) (fields segment_)) in
  fst (emitLoop delimiters otherFields (result, 2)).

Definition serializeSegment (segment_ : SegmentNode)
  (delimiters : HL7Delimiters) : jsstring :=
  let result := name segment_ in
  let sortedFields := JS.sort index (fields segment_) in
  fst (emitLoop delimiters sortedFields (result, 0)).

(** [a === b] on strings. *)
Definition jsstring_eqb (a b : jsstring) : bool :=
  if list_eq_dec ascii_dec a b then true else false.

(** [message.segments.map((segment, index) => ...)] *)
Definition serializeSegments (message_ : HL7Message) : list jsstring :=
  JS.mapi_from 0
    (fun i segment_ =>
       if jsstring_eqb (name segment_) (str "MSH") && (i =? 0)
       then serializeMSHSegment segment_ (delimiters message_)
       else serializeSegment segment_ (delimiters message_))
    (segments message_).

Definition serializeHL7 (message_ : HL7Message)
  (includeTrailingTerminator : bool) : jsstring :=
  let result :=
    JS.join (segment (delimiters message_)) (serializeSegments message_) in
  if includeTrailingTerminator
  then result ++ segment (delimiters message_)
  else result.

(** ** The field re-parser ([src/hl7/fieldReparse.ts]) *)

Definition reparseFieldFromString (fieldString : jsstring)
  (delimiters : HL7Delimiters) (fieldIndex : Z) : FieldNode :=
  parseFieldString fieldString delimiters fieldIndex.

(** [isValidHL7] of [parse.ts] *)
Definition isValidHL7 (input : jsstring) : bool :=
  let normalized := normalizeLineEndings (JS.trim input) in
  JS.startsWith normalized (str "MSH") && (8 <? JS.length normalized).

(** ** The rest of the serializer *)

Definition serializeSingleSegment (segment_ : SegmentNode)
  (delimiters : HL7Delimiters) (isMSH : bool) : jsstring :=
  if isMSH
  then serializeMSHSegment segment_ delimiters
  else serializeSegment segment_ delimiters.

(** The loop [while (result.endsWith(field)) result = result.slice(0, -1)]
    of [trimTrailingDelimiters], run for at most [fuel] tests of its
    condition; [None] when the loop has not stopped by then. *)
Fixpoint trimLoop (fuel : nat) (fieldDelim result : jsstring)
  : option jsstring :=
  match fuel with
  | O => None
  | S fuel' =>
      if JS.endsWith result fieldDelim
      then trimLoop fuel' fieldDelim (JS.dropLast result)
      else Some result
  end.

(** [l.map(f)] for an [f] that may not return. *)
Fixpoint mapOption {A B : Type} (f : A -> option B) (l : list A)
  : option (list B) :=
  match l with
  | [] => Some []
  | x :: l' =>
      match f x, mapOption f l' with
      | Some y, Some ys => Some (y :: ys)
      | _, _ => None
      end
  end.

Definition trimSegment (fuel : nat) (delimiters : HL7Delimiters)
  (seg : jsstring) : option jsstring :=
  if JS.startsWith seg (str "MSH")
  then Some seg
  else trimLoop fuel (field delimiters) seg.

Definition trimTrailingDelimiters (fuel : nat) (serialized : jsstring)
  (delimiters : HL7Delimiters) : option jsstring :=
  let segments := JS.split serialized (segment delimiters) in
  match mapOption (trimSegment fuel delimiters) segments with
  | Some trimmed => Some (JS.join (segment delimiters) trimmed)
  | None => None
  end.

(** ** The rest of the field re-parser *)

(** [s.includes(needle)] *)
Definition includes (s needle : jsstring) : bool :=
  match JS.search s needle with
  | Some _ => true
  | None => false
  end.

Definition containsDelimiters (value : jsstring) (delimiters : HL7Delimiters)
  : bool :=
  includes value (repeat delimiters)
  || includes value (component delimiters)
  || includes value (subcomponent delimiters).

Definition getFieldDisplayString (field_ : FieldNode)
  (delimiters : HL7Delimiters) : jsstring :=
  serializeField field_ delimiters.

(** The three length tests, each guarding the access that follows it. *)
Definition getSimpleFieldValue (field_ : FieldNode) : option jsstring :=
  match repeats field_ with
  | [r] =>
      match components r with
      | [c] =>
          match subcomponents c with
          | [s] => Some (value s)
          | _ => None
          end
      | _ => None
      end
  | _ => None
  end.

Definition isSimpleField (field_ : FieldNode) : bool :=
  match repeats field_ with
  | [r] =>
      match components r with
      | [c] =>
          match subcomponents c with
          | [_] => true
          | _ => false
          end
      | _ => false
      end
  | _ => false
  end.

(** ** The selectors and the edits of the store ([src/app/store.ts], in
    [App.tsx])

    The store keeps the parsed message ([null] is [None]); an edit works on
    a [structuredClone] of it, which for values is the message itself, and
    stores the result.  Messages are trees: no node occurs twice, as the
    parser and the edits build them.  The functions below give the
    [message] of the state after the call.  The delayed re-serialization
    into [currentRaw] is left out. *)

Definition getFieldValue (message_ : option HL7Message)
  (segmentIndex fieldIndex : Z) : option FieldNode :=
  match message_ with
  | None => None
  | Some m =>
      match JS.nth (segments m) segmentIndex with
      | None => None
      | Some segment_ => find (fun f => index f =? fieldIndex) (fields segment_)
      end
  end.

Definition getLeafValue (message_ : option HL7Message)
  (segmentIndex fieldIndex repeatIndex componentIndex subcomponentIndex : Z)
  : jsstring :=
  match message_ with
  | None => []
  | Some _ =>
      match getFieldValue message_ segmentIndex fieldIndex with
      | None => []
      | Some field_ =>
          match JS.nth (repeats field_) repeatIndex with
          | None => []
          | Some repeat_ =>
              match JS.nth (components repeat_) componentIndex with
              | None => []
              | Some component_ =>
                  match JS.nth (subcomponents component_) subcomponentIndex with
                  | None => []
                  | Some subcomponent_ => value subcomponent_
                  end
              end
          end
      end
  end.

(** The nodes an edit creates. *)
Definition emptyComponent : ComponentNode :=
  {| subcomponents := [ {| value := [] |} ] |}.

Definition emptyRepeat : RepeatNode := {| components := [ emptyComponent ] |}.

(** The result of a call that may throw. *)
Inductive Outcome (A : Type) : Type :=
| Returns (state : A)
| Throws.

Arguments Returns {A} state.
Arguments Throws {A}.

(** The edit of one leaf of a field, creating the nodes on the way; a
    negative position makes the access [undefined] and the next property
    access throws. *)
Definition setLeaf (field_ : FieldNode)
  (repeatIndex componentIndex subcomponentIndex : Z) (value_ : jsstring)
  : option FieldNode :=
  let repeats1 := JS.padTo emptyRepeat repeatIndex (repeats field_) in
  match JS.nth repeats1 repeatIndex with
  | None => None
  | Some repeat_ =>
      let components1 :=
        JS.padTo emptyComponent componentIndex (components repeat_) in
      match JS.nth components1 componentIndex with
      | None => None
      | Some component_ =>
          let subcomponents1 :=
            JS.padTo {| value := [] |} subcomponentIndex
                     (subcomponents component_) in
          match JS.nth subcomponents1 subcomponentIndex with
          | None => None
          | Some _ =>
              let subcomponents2 :=
                JS.setAt subcomponents1 (Z.to_nat subcomponentIndex)
                         {| value := value_ |} in
              let components2 :=
                JS.setAt components1 (Z.to_nat componentIndex)
                         {| subcomponents := subcomponents2 |} in
              Some {| index := index field_;
                      repeats :=
                        JS.setAt repeats1 (Z.to_nat repeatIndex)
                                 {| components := components2 |} |}
          end
      end
  end.

(** [updateLeafValue]: the field found, or the one created, pushed and
    sorted into place, is the first field of its index in the array; the
    edit replaces it there. *)
Definition updateLeafValue (message_ : option HL7Message)
  (segmentIndex fieldIndex repeatIndex componentIndex subcomponentIndex : Z)
  (value_ : jsstring) : Outcome (option HL7Message) :=
  match message_ with
  | None => Returns None
  | Some m =>
      match JS.nth (segments m) segmentIndex with
      | None => Returns (Some m)
      | Some segment_ =>
          let found := find (fun f => index f =? fieldIndex) (fields segment_) in
          let field_ :=
            match found with
            | Some f => f
            | None => {| index := fieldIndex; repeats := [ emptyRepeat ] |}
            end in
          let fields1 :=
            match found with
            | Some _ => fields segment_
            | None => JS.sort index (fields segment_ ++ [field_])
            end in
          match setLeaf field_ repeatIndex componentIndex subcomponentIndex
                        value_ with
          | None => Throws
          | Some field' =>
              let at_ := JS.findIndex (fun f => index f =? fieldIndex) fields1 in
              Returns
                (Some {| delimiters := delimiters m;
                         segments :=
                           JS.setAt (segments m) (Z.to_nat segmentIndex)
                             {| name := name segment_;
                                fields :=
                                  JS.setAt fields1 (Z.to_nat at_) field' |} |})
          end
      end
  end.

Definition updateFieldFromString (message_ : option HL7Message)
  (segmentIndex fieldIndex : Z) (fieldString : jsstring)
  : option HL7Message :=
  match message_ with
  | None => None
  | Some m =>
      match JS.nth (segments m) segmentIndex with
      | None => Some m
      | Some segment_ =>
          let newField :=
            reparseFieldFromString fieldString (delimiters m) fieldIndex in
          let existingFieldIdx :=
            JS.findIndex (fun f => index f =? fieldIndex) (fields segment_) in
          let fields' :=
            if 0 <=? existingFieldIdx
            then JS.setAt (fields segment_) (Z.to_nat existingFieldIdx) newField
            else JS.sort index (fields segment_ ++ [newField]) in
          Some {| delimiters := delimiters m;
                  segments :=
                    JS.setAt (segments m) (Z.to_nat segmentIndex)
                      {| name := name segment_; fields := fields' |} |}
      end
  end.

(** ** The comparison of two messages ([src/utils/diff.ts], in
    [GridView.tsx]) *)

Definition hasFieldChanged (original current : option HL7Message)
  (segmentIndex fieldIndex : Z) : bool :=
  match original, current with
  | Some original_, Some current_ =>
      match JS.nth (segments original_) segmentIndex,
            JS.nth (segments current_) segmentIndex with
      | Some originalSegment, Some currentSegment =>
          match find (fun f => index f =? fieldIndex) (fields originalSegment),
                find (fun f => index f =? fieldIndex) (fields currentSegment)
          with
          | None, None => false
          | Some originalField, Some currentField =>
              negb (jsstring_eqb
                      (serializeField originalField (delimiters original_))
                      (serializeField currentField (delimiters current_)))
          | _, _ => true
          end
      | _, _ => false
      end
  | _, _ => false
  end.

(** The closure [getLeaf] of [hasLeafChanged]; [undefined] is [None]. *)
Definition getLeaf (msg : HL7Message)
  (segmentIndex fieldIndex repeatIndex componentIndex subcomponentIndex : Z)
  : option jsstring :=
  match JS.nth (segments msg) segmentIndex with
  | None => None
  | Some segment_ =>
      match find (fun f => index f =? fieldIndex) (fields segment_) with
      | None => None
      | Some field_ =>
          match JS.nth (repeats field_) repeatIndex with
          | None => None
          | Some repeat_ =>
              match JS.nth (components repeat_) componentIndex with
              | None => None
              | Some component_ =>
                  option_map value
                    (JS.nth (subcomponents component_) subcomponentIndex)
              end
          end
      end
  end.

(** [a === b] for a string or [undefined]. *)
Definition sameLeaf (a b : option jsstring) : bool :=
  match a, b with
  | Some x, Some y => jsstring_eqb x y
  | None, None => true
  | _, _ => false
  end.

Definition hasLeafChanged (original current : option HL7Message)
  (segmentIndex fieldIndex repeatIndex componentIndex subcomponentIndex : Z)
  : bool :=
  match original, current with
  | Some original_, Some current_ =>
      negb (sameLeaf
              (getLeaf original_ segmentIndex fieldIndex repeatIndex
                       componentIndex subcomponentIndex)
              (getLeaf current_ segmentIndex fieldIndex repeatIndex
                       componentIndex subcomponentIndex))
  | _, _ => false
  end.

(** ** Definitions used to state the properties *)

(** Splitting at every character that satisfies [p]. *)
Fixpoint splitBy (p : ascii -> bool) (s : jsstring) : list jsstring :=
  match s with
  | [] => [[]]
  | c :: s' => if p c then [] :: splitBy p s' else JS.extend c (splitBy p s')
  end.

Definition isLineBreak (c : ascii) : bool :=
  Ascii.eqb c JS.CR || Ascii.eqb c JS.LF.

Definition nonEmpty (line : jsstring) : bool := 0 <? JS.length line.

(** The maximal non-empty runs of characters other than CR and LF. *)
Definition tokens (s : jsstring) : list jsstring :=
  filter nonEmpty (splitBy isLineBreak s).

(** Two piece lists that agree on the first piece and, empty pieces
    apart, on the others. *)
Definition sameLines (a b : list jsstring) : Prop :=
  match a, b with
  | ha :: ta, hb :: tb => ha = hb /\ filter nonEmpty ta = filter nonEmpty tb
  | _, _ => False
  end.

(** [s] holds no character satisfying [p]. *)
Definition free (p : ascii -> bool) (s : jsstring) : Prop :=
  Forall (fun c => p c = false) s.

(** A line as the parser sees it: not empty, without CR or LF. *)
Definition goodLine (l : jsstring) : Prop :=
  nonEmpty l = true /\ free isLineBreak l.

(** The text the serializers emit for a list of fields, after a field of
    index [last]: one bare delimiter per skipped index, then the delimiter
    and the field. *)
Fixpoint emitFields (d : HL7Delimiters) (last : Z) (fs : list FieldNode)
  : jsstring :=
  match fs with
  | [] => []
  | f :: fs' =>
      List.concat (List.repeat (field d) (Z.to_nat (index f - last - 1)))
      ++ field d ++ serializeField f d ++ emitFields d (index f) fs'
  end.

(** The encoding-characters block of a header line: the text after the
    field delimiter, up to its next occurrence or to the end of the line
    (as [parseMSHSegment] computes it). *)
Fixpoint upTo (c : ascii) (s : jsstring) : jsstring :=
  match s with
  | [] => []
  | x :: s' => if Ascii.eqb x c then [] else x :: upTo c s'
  end.

Definition encodingBlock (mshLine : jsstring) : jsstring :=
  match mshLine with
  | _ :: _ :: _ :: f :: after => upTo f after
  | _ => []
  end.

(** Ascending order of a numeric key. *)
Definition byKey {A : Type} (key : A -> Z) (a b : A) : Prop :=
  key a <= key b.

Definition byIndex : FieldNode -> FieldNode -> Prop := byKey index.

(** [Number.MAX_SAFE_INTEGER] (2^53 - 1) and [Number.isSafeInteger]: the
    integers between which [+ 1], [i++] and [<] on numbers are those of
    the integers. *)
Definition MAX_SAFE_INTEGER : Z := 9007199254740991.

Definition isSafeInteger (n : Z) : Prop :=
  - MAX_SAFE_INTEGER <= n <= MAX_SAFE_INTEGER.

(** Every field index of the segment is a safe integer. *)
Definition safeIndices (seg : SegmentNode) : Prop :=
  Forall (fun f => isSafeInteger (index f)) (fields seg).

(** The non-empty-containers shape of a field. *)
Definition wellFormedField (f : FieldNode) : Prop :=
  repeats f <> [] /\
  Forall (fun r =>
            components r <> [] /\
            Forall (fun c => subcomponents c <> []) (components r))
         (repeats f).

(** [getDefaultDelimiters] of [types.ts]. *)
Definition getDefaultDelimiters : HL7Delimiters :=
  {| field := str "|"; repeat := str "~"; component := str "^";
     subcomponent := str "&"; escape := [backslash] |}.

(** What the header serializer writes in the place of field 2. *)
Definition headerEncoding (seg : SegmentNode) (d : HL7Delimiters)
  (enc : jsstring) : Prop :=
  match find (fun f => index f =? 2) (fields seg) with
  | Some f =>
      enc = serializeField f d /\
      (forall v, f = createSimpleField v 2 -> enc = v)
  | None => enc = component d ++ repeat d ++ escape d ++ subcomponent d
  end.

(** Sample messages. *)
Definition sampleHeader : SegmentNode :=
  {| name := str "MSH";
     fields := [ createSimpleField (str "X") 4;
                 createSimpleField (str "|") 1;
                 createSimpleField (str "^~\&") 2;
                 createSimpleField (str "A") 3 ] |}.

Definition sampleMessage : HL7Message :=
  {| delimiters := getDefaultDelimiters;
     segments := [ sampleHeader;
                   {| name := str "PID";
                      fields := [ createSimpleField (str "v") 5 ] |} ] |}.

(** The failures of the parser, as the records it builds. *)
Definition emptyInputError : ParseError :=
  {| message := str "No segments found in input";
     segmentIndex := None; segmentName := None;
     fieldIndex := None; snippet := None |}.

Definition missingHeaderError (firstLine : jsstring) : ParseError :=
  {| message := str "HL7 message must start with MSH segment";
     segmentIndex := None; segmentName := None; fieldIndex := None;
     snippet := Some (JS.substring firstLine 0 50) |}.

Definition invalidSegmentNameError (line segName : jsstring) (i : Z)
  : ParseError :=
  {| message := str "Invalid segment name: " ++ [dquote] ++ segName ++ [dquote];
     segmentIndex := Some i; segmentName := Some segName; fieldIndex := None;
     snippet := Some (JS.substring line 0 50) |}.

Definition emptySegmentError (line : jsstring) (i : Z) : ParseError :=
  {| message := str "Empty or invalid segment";
     segmentIndex := Some i; segmentName := None; fieldIndex := None;
     snippet := Some (JS.substring line 0 50) |}.

(** A segment whose fields are out of order and leave indices 2 and 3
    out. *)
Definition sampleGaps : SegmentNode :=
  {| name := str "PID";
     fields := [ createSimpleField (str "c") 4;
                 createSimpleField (str "a") 1 ] |}.

(** Sample inputs. *)
Definition lines2 (a b : string) : jsstring := str a ++ [JS.CR] ++ str b.

Definition sampleInput : jsstring := lines2 "MSH|^~\&|A|B^C" "PID|1".

Definition sampleParsed : HL7Message :=
  {| delimiters := getDefaultDelimiters;
     segments :=
       [ parseMSHSegment (str "MSH|^~\&|A|B^C") getDefaultDelimiters;
         {| name := str "PID"; fields := [ createSimpleField (str "1") 1 ] |} ]
  |}.

(** Inputs of [tests/parseSerialize.test.ts]. *)
Definition SIMPLE_MESSAGE : jsstring :=
  lines2 "MSH|^~\&|SENDING|FACILITY|RECEIVING|FACILITY|20231215120000||ADT^A01|MSG001|P|2.5"
         "PID|1||12345^^^MRN||DOE^JOHN^Q||19800115|M".

Definition MESSAGE_WITH_ALL_DELIMITERS : jsstring :=
  lines2 "MSH|^~\&|SEND|FAC|RECV|FAC|20231215||ADT^A01|123|P|2.5"
         "PID|1||12345||DOE^JOHN&JR~SMITH^JANE&SR||19800101|M"
  ++ [JS.CR] ++ str "OBX|1|NM|HEIGHT||180|cm|150-200|N|||F".

Definition CUSTOM_FIELD_MESSAGE : jsstring :=
  lines2 "MSH#^~\&#SEND#FAC#RECV#FAC#20231215##ADT^A01#123#P#2.5"
         "PID#1##12345##DOE^JOHN##19800101#M".

Definition leaf (v : string) : ComponentNode :=
  {| subcomponents := [ {| value := str v |} ] |}.

(** The fields of the segment after [updateFieldFromString]. *)
Definition putField (fs : list FieldNode) (newField : FieldNode)
  : list FieldNode :=
  let at_ := JS.findIndex (fun f => index f =? index newField) fs in
  if 0 <=? at_
  then JS.setAt fs (Z.to_nat at_) newField
  else JS.sort index (fs ++ [newField]).

(** The field [updateLeafValue] edits: the one found, or a fresh one. *)
Definition freshField (j : Z) : FieldNode :=
  {| index := j; repeats := [ emptyRepeat ] |}.

Definition fieldOrFresh (fs : list FieldNode) (j : Z) : FieldNode :=
  match find (fun f => index f =? j) fs with
  | Some f => f
  | None => freshField j
  end.

(** The fields of the segment after [updateLeafValue], for the field
    [field'] that [setLeaf] returns. *)
Definition leafFields (fs : list FieldNode) (j : Z) (field' : FieldNode)
  : list FieldNode :=
  let fields1 :=
    match find (fun f => index f =? j) fs with
    | Some _ => fs
    | None => JS.sort index (fs ++ [freshField j])
    end in
  JS.setAt fields1
    (Z.to_nat (JS.findIndex (fun f => index f =? j) fields1)) field'.

Definition wellFormedRepeat (r : RepeatNode) : Prop :=
  components r <> [] /\
  Forall (fun c => subcomponents c <> []) (components r).

(** * Properties *)

(** ** The built-ins *)

Section StringLemmas.

Lemma startsWith_app (pre rest : jsstring) :
  JS.startsWith (pre ++ rest) pre = true.
Proof.
  induction pre as [|p pre IH]; simpl; [reflexivity|].
  now rewrite Ascii.eqb_refl.
Qed.

Lemma startsWith_inv (pre s : jsstring) :
  JS.startsWith s pre = true -> exists rest, s = pre ++ rest.
Proof.
  revert s; induction pre as [|p pre IH]; intros s H.
  - now exists s.
  - destruct s as [|c s]; simpl in H; [discriminate|].
    apply andb_true_iff in H as [Hc Hs].
    apply Ascii.eqb_eq in Hc; subst c.
    destruct (IH _ Hs) as [rest ->]. now exists rest.
Qed.

Lemma startsWith_single (c x : ascii) (s : jsstring) :
  JS.startsWith (x :: s) [c] = Ascii.eqb x c.
Proof. simpl. apply andb_true_r. Qed.

Lemma clamp_nat (s : jsstring) (n : nat) :
  JS.clamp s (Z.of_nat n) = Nat.min n (List.length s).
Proof. unfold JS.clamp, JS.length. lia. Qed.

Lemma clamp_length (s : jsstring) : JS.clamp s (JS.length s) = List.length s.
Proof. unfold JS.clamp, JS.length. lia. Qed.

Lemma clamp_neg (s : jsstring) (n : Z) : n <= 0 -> JS.clamp s n = 0%nat.
Proof. unfold JS.clamp, JS.length. lia. Qed.

Lemma firstn_min_length {A : Type} (n : nat) (l : list A) :
  firstn (Nat.min n (List.length l)) l = firstn n l.
Proof.
  destruct (Nat.le_ge_cases n (List.length l)) as [H|H].
  - now rewrite Nat.min_l.
  - rewrite Nat.min_r by assumption.
    now rewrite firstn_all, firstn_all2.
Qed.

Lemma skipn_min_length {A : Type} (n : nat) (l : list A) :
  skipn (Nat.min n (List.length l)) l = skipn n l.
Proof.
  destruct (Nat.le_ge_cases n (List.length l)) as [H|H].
  - now rewrite Nat.min_l.
  - rewrite Nat.min_r by assumption.
    now rewrite skipn_all, skipn_all2.
Qed.

Lemma substringFrom_skipn (s : jsstring) (n : nat) :
  JS.substringFrom s (Z.of_nat n) = skipn n s.
Proof.
  unfold JS.substringFrom, JS.substring.
  rewrite clamp_nat, clamp_length.
  assert (Hm : (Nat.min n (List.length s) <= List.length s)%nat) by lia.
  rewrite (Nat.min_l _ _ Hm), (Nat.max_r _ _ Hm), skipn_min_length.
  apply firstn_all2. rewrite length_skipn. lia.
Qed.

Lemma substring_firstn (s : jsstring) (n : nat) :
  JS.substring s 0 (Z.of_nat n) = firstn n s.
Proof.
  unfold JS.substring.
  rewrite clamp_nat, clamp_neg by lia.
  rewrite Nat.min_0_l, Nat.max_0_l, Nat.sub_0_r. simpl.
  apply firstn_min_length.
Qed.

(** [search] finds the first occurrence of a character. *)
Lemma search_char_none (c : ascii) (s : jsstring) :
  JS.search s [c] = None -> upTo c s = s /\ free (fun x => Ascii.eqb x c) s.
Proof.
  induction s as [|x s IH]; intros H.
  - split; [reflexivity | constructor].
  - cbn [JS.search] in H. rewrite startsWith_single in H.
    cbn [upTo]. destruct (Ascii.eqb x c) eqn:E; [discriminate|].
    destruct (JS.search s [c]); [discriminate|].
    destruct (IH eq_refl) as [-> F]. split; [reflexivity | now constructor].
Qed.

Lemma search_char_some (c : ascii) (s : jsstring) (k : nat) :
  JS.search s [c] = Some k ->
  firstn k s = upTo c s /\ s = upTo c s ++ c :: skipn (S k) s.
Proof.
  revert k; induction s as [|x s IH]; intros k H.
  - discriminate.
  - cbn [JS.search] in H. rewrite startsWith_single in H.
    cbn [upTo]. destruct (Ascii.eqb x c) eqn:E.
    + injection H as <-. apply Ascii.eqb_eq in E; subst x. now split.
    + destruct (JS.search s [c]) as [j|]; [|discriminate].
      injection H as <-. destruct (IH j eq_refl) as [H1 H2].
      split; simpl.
      * now rewrite H1.
      * simpl in H2. now rewrite <- H2.
Qed.


Lemma upTo_app (c : ascii) (a rest : jsstring) :
  free (fun x => Ascii.eqb x c) a -> upTo c (a ++ c :: rest) = a.
Proof.
  induction 1 as [|x a Hx _ IH]; simpl.
  - now rewrite Ascii.eqb_refl.
  - now rewrite Hx, IH.
Qed.

Lemma upTo_all (c : ascii) (a : jsstring) :
  free (fun x => Ascii.eqb x c) a -> upTo c a = a.
Proof.
  induction 1 as [|x a Hx _ IH]; simpl; [reflexivity|].
  now rewrite Hx, IH.
Qed.

End StringLemmas.

(** ** [split] and [join] *)

Section SplitJoin.

Lemma join_cons2 (sep p q : jsstring) (rest : list jsstring) :
  JS.join sep (p :: q :: rest) = p ++ sep ++ JS.join sep (q :: rest).
Proof. reflexivity. Qed.

Lemma join_cons (sep p : jsstring) (rest : list jsstring) :
  rest <> [] -> JS.join sep (p :: rest) = p ++ sep ++ JS.join sep rest.
Proof. destruct rest; [congruence | reflexivity]. Qed.

Lemma join_extend (sep : jsstring) (c : ascii) (l : list jsstring) :
  l <> [] -> JS.join sep (JS.extend c l) = c :: JS.join sep l.
Proof.
  destruct l as [|p [|q rest]]; [congruence | reflexivity | reflexivity].
Qed.

Lemma extend_nonempty (c : ascii) (l : list jsstring) : JS.extend c l <> [].
Proof. destruct l; discriminate. Qed.

Lemma split_scan_nonempty (sep : jsstring) (k : nat) (s : jsstring) :
  JS.split_scan sep k s <> [].
Proof.
  revert k; induction s as [|c s IH]; intros k; simpl; [discriminate|].
  destruct k; [|apply IH].
  destruct (JS.startsWith (c :: s) sep); [discriminate | apply extend_nonempty].
Qed.

(** Passing over the rest of a separator occurrence. *)
Lemma split_scan_skip (sep p rest : jsstring) :
  JS.split_scan sep (List.length p) (p ++ rest) = JS.split_scan sep 0 rest.
Proof. induction p as [|c p IH]; simpl; [reflexivity | exact IH]. Qed.

Lemma join_split_scan (sep : jsstring) :
  sep <> [] -> forall s, JS.join sep (JS.split_scan sep 0 s) = s.
Proof.
  intros Hsep s.
  remember (List.length s) as n eqn:Hn.
  revert s Hn; induction n as [n IH] using lt_wf_ind; intros s Hn.
  destruct s as [|c s]; [reflexivity|].
  cbn [JS.split_scan].
  destruct (JS.startsWith (c :: s) sep) eqn:E.
  - apply startsWith_inv in E as [rest E].
    destruct sep as [|c' sep']; [congruence|].
    injection E as <- ->.
    cbn [List.length]. rewrite Nat.sub_succ, Nat.sub_0_r.
    rewrite split_scan_skip.
    rewrite join_cons by apply split_scan_nonempty.
    rewrite (IH (List.length rest)); [reflexivity | | reflexivity].
    subst n. cbn [List.length]. rewrite length_app. lia.
  - rewrite join_extend by apply split_scan_nonempty.
    f_equal. apply (IH (List.length s)); [subst n; simpl; lia | reflexivity].
Qed.

Lemma join_chars (s : jsstring) : JS.join [] (map (fun c => [c]) s) = s.
Proof.
  induction s as [|c s IH]; [reflexivity|].
  cbn [map]. destruct s as [|c' s']; [reflexivity|].
  cbn [map] in *. rewrite join_cons2. simpl. f_equal. exact IH.
Qed.

(** Joining the pieces of a split with the separator gives the string
    back, whatever the separator is. *)
Lemma join_split (s sep : jsstring) : JS.join sep (JS.split s sep) = s.
Proof.
  destruct sep as [|c sep]; [apply join_chars|].
  apply join_split_scan. discriminate.
Qed.

Lemma split_nonempty (s : jsstring) (c : ascii) (sep : jsstring) :
  JS.split s (c :: sep) <> [].
Proof. apply split_scan_nonempty. Qed.

(** Splitting at a one-character separator. *)
Lemma split_char (s : jsstring) (c : ascii) :
  JS.split s [c] = splitBy (fun x => Ascii.eqb x c) s.
Proof.
  unfold JS.split.
  induction s as [|x s IH]; [reflexivity|].
  cbn [JS.split_scan splitBy]. rewrite startsWith_single.
  destruct (Ascii.eqb x c); simpl; now rewrite IH.
Qed.

Lemma splitBy_nonempty (p : ascii -> bool) (s : jsstring) : splitBy p s <> [].
Proof.
  destruct s as [|c s]; simpl; [discriminate|].
  destruct (p c); [discriminate | apply extend_nonempty].
Qed.

Lemma splitBy_free (p : ascii -> bool) (s : jsstring) :
  free p s -> splitBy p s = [s].
Proof.
  induction 1 as [|c s Hc _ IH]; simpl; [reflexivity|].
  now rewrite Hc, IH.
Qed.

Lemma splitBy_pieces_free (p : ascii -> bool) (s : jsstring) :
  Forall (free p) (splitBy p s).
Proof.
  induction s as [|c s IH]; simpl.
  - repeat constructor.
  - destruct (p c) eqn:E.
    + constructor; [constructor | exact IH].
    + destruct (splitBy p s) as [|h t]; simpl.
      * repeat constructor. exact E.
      * inversion IH; subst. constructor; [now constructor | assumption].
Qed.

(** A piece without separators in front of a separator. *)
Lemma splitBy_app_sep (p : ascii -> bool) (a : jsstring) (c : ascii)
  (rest : jsstring) :
  free p a -> p c = true -> splitBy p (a ++ c :: rest) = a :: splitBy p rest.
Proof.
  intros Ha Hc. induction Ha as [|x a Hx _ IH]; simpl.
  - now rewrite Hc.
  - now rewrite Hx, IH.
Qed.

Lemma splitBy_join (p : ascii -> bool) (c : ascii) (pieces : list jsstring) :
  p c = true -> pieces <> [] -> Forall (free p) pieces ->
  splitBy p (JS.join [c] pieces) = pieces.
Proof.
  intros Hc Hne Hfree.
  induction pieces as [|a rest IH]; [congruence|].
  inversion Hfree as [|? ? Ha Hrest]; subst.
  destruct rest as [|b rest].
  - simpl. now apply splitBy_free.
  - rewrite join_cons2. cbn [app].
    rewrite splitBy_app_sep by assumption.
    f_equal. apply IH; [discriminate | assumption].
Qed.

(** Appending separator-free text extends the last piece. *)
Lemma splitBy_app_free (p : ascii -> bool) (s t : jsstring) :
  free p t ->
  exists init b,
    splitBy p s = init ++ [b] /\ splitBy p (s ++ t) = init ++ [b ++ t].
Proof.
  intros Ht. induction s as [|c s IH].
  - exists [], []. split; [reflexivity|]. simpl. now apply splitBy_free.
  - destruct IH as (init & b & E1 & E2). cbn [app splitBy].
    rewrite E1, E2. destruct (p c).
    + exists ([] :: init), b. now split.
    + destruct init as [|h init]; simpl.
      * exists [], (c :: b). now split.
      * exists ((c :: h) :: init), b. now split.
Qed.

Lemma in_splitBy (p : ascii -> bool) (s piece : jsstring) (x : ascii) :
  In piece (splitBy p s) -> In x piece -> In x s.
Proof.
  revert piece; induction s as [|c s IH]; intros piece Hp Hx.
  - simpl in Hp. destruct Hp as [<-|[]]. exact Hx.
  - simpl in Hp. destruct (p c).
    + destruct Hp as [<-|Hp]; [destruct Hx | right; eauto].
    + destruct (splitBy p s) as [|h t] eqn:E; simpl in Hp.
      * destruct Hp as [<-|[]]. destruct Hx as [<-|[]]. now left.
      * destruct Hp as [<-|Hp].
        -- destruct Hx as [<-|Hx]; [now left | right].
           apply (IH h); [now left | assumption].
        -- right. apply (IH piece); [now right | assumption].
Qed.

End SplitJoin.

(** ** Loops, indexed maps and the sort *)

Section Arrays.

Context {A B : Type}.

Lemma mapi_from_shift (a b : Z) (g : Z -> A -> B) (l : list A) :
  JS.mapi_from a (fun i x => g (i + b) x) l = JS.mapi_from (a + b) g l.
Proof.
  revert a; induction l as [|x l IH]; intros a; simpl; [reflexivity|].
  f_equal. rewrite IH. f_equal. lia.
Qed.

Lemma mapi_from_ext (a : Z) (f g : Z -> A -> B) (l : list A) :
  (forall i x, a <= i -> f i x = g i x) ->
  JS.mapi_from a f l = JS.mapi_from a g l.
Proof.
  revert a; induction l as [|x l IH]; intros a H; simpl; [reflexivity|].
  f_equal; [apply H; lia|]. apply IH. intros i y Hi. apply H. lia.
Qed.

Lemma mapi_from_const (a : Z) (g : A -> B) (l : list A) :
  JS.mapi_from a (fun _ x => g x) l = map g l.
Proof.
  revert a; induction l as [|x l IH]; intros a; simpl; [reflexivity|].
  now rewrite IH.
Qed.

Variable key : A -> Z.

Lemma insert_perm (x : A) (l : list A) :
  Permutation (JS.insert key x l) (x :: l).
Proof.
  induction l as [|y l IH]; simpl; [reflexivity|].
  destruct (key x <=? key y); [reflexivity|].
  rewrite IH. apply perm_swap.
Qed.

Lemma sort_perm (l : list A) : Permutation (JS.sort key l) l.
Proof.
  induction l as [|x l IH]; simpl; [reflexivity|].
  rewrite insert_perm. now constructor.
Qed.

Lemma insert_sorted (x : A) (l : list A) :
  StronglySorted (byKey key) l -> StronglySorted (byKey key) (JS.insert key x l).
Proof.
  induction 1 as [|y l Hs IH Hy]; simpl.
  - repeat constructor.
  - destruct (key x <=? key y) eqn:E.
    + apply Z.leb_le in E. constructor; [now constructor|].
      constructor; [exact E|].
      eapply Forall_impl; [|exact Hy]. unfold byKey. intros z Hz. lia.
    + apply Z.leb_gt in E. constructor; [exact IH|].
      eapply Permutation_Forall; [symmetry; apply insert_perm|].
      constructor; [unfold byKey; lia | exact Hy].
Qed.

Lemma sort_sorted (l : list A) : StronglySorted (byKey key) (JS.sort key l).
Proof.
  induction l as [|x l IH]; simpl; [constructor | now apply insert_sorted].
Qed.

(** The sort leaves a list that is already in order as it is. *)
Lemma sort_id (l : list A) :
  StronglySorted (byKey key) l -> JS.sort key l = l.
Proof.
  induction 1 as [|x l Hs IH Hx]; simpl; [reflexivity|].
  rewrite IH. destruct l as [|y l]; simpl; [reflexivity|].
  inversion Hx as [|? ? Hxy _]; subst. unfold byKey in Hxy.
  apply Z.leb_le in Hxy. now rewrite Hxy.
Qed.

End Arrays.

Section Emit.

Variable d : HL7Delimiters.

Lemma fold_left_pad (x acc : jsstring) (ks : list nat) :
  fold_left (fun a (_ : nat) => a ++ x) ks acc
  = acc ++ List.concat (List.repeat x (List.length ks)).
Proof.
  revert acc; induction ks as [|k ks IH]; intros acc; simpl.
  - now rewrite app_nil_r.
  - rewrite IH. now rewrite <- app_assoc.
Qed.

Lemma for_range_pad (lo hi : Z) (x acc : jsstring) :
  JS.for_range lo hi (fun _ r => r ++ x) acc
  = acc ++ List.concat (List.repeat x (Z.to_nat (hi - lo))).
Proof.
  unfold JS.for_range. cbv beta. rewrite fold_left_pad. now rewrite length_seq.
Qed.

(** The serializers' loop emits [emitFields]. *)
Lemma emitLoop_spec (fs : list FieldNode) (result : jsstring) (last : Z) :
  fst (emitLoop d fs (result, last)) = result ++ emitFields d last fs.
Proof.
  unfold emitLoop.
  revert result last; induction fs as [|f fs IH]; intros result last.
  - simpl. now rewrite app_nil_r.
  - cbn [fold_left emitFields]. rewrite IH, for_range_pad.
    replace (index f - (last + 1)) with (index f - last - 1) by lia.
    now rewrite <- !app_assoc.
Qed.

Lemma serializeSegment_spec (seg : SegmentNode) :
  serializeSegment seg d = name seg ++ emitFields d 0 (JS.sort index (fields seg)).
Proof. unfold serializeSegment. apply emitLoop_spec. Qed.

(** Split then join, at the three levels of a field. *)
Lemma serializeField_parseField (s : jsstring) (i : Z) :
  serializeField (parseField s d i) d = s.
Proof.
  unfold serializeField, serializeRepeats, parseField; cbn [repeats].
  rewrite map_map.
  rewrite (map_ext _ (fun r => r)), map_id; [apply join_split|].
  intros r. unfold serializeComponents; cbn [components].
  rewrite map_map.
  rewrite (map_ext _ (fun c => c)), map_id; [apply join_split|].
  intros c. unfold serializeSubcomponents; cbn [subcomponents].
  rewrite map_map. cbn [value]. rewrite map_id. apply join_split.
Qed.

Lemma serializeField_simple (v : jsstring) (i : Z) :
  serializeField (createSimpleField v i) d = v.
Proof. reflexivity. Qed.

(** Fields numbered without gaps are emitted without padding. *)
Lemma emitFields_contiguous (parts : list jsstring) (last k : Z) :
  k = last + 1 ->
  emitFields d last (JS.mapi_from k (fun i s => parseField s d i) parts)
  = List.concat (map (fun p => field d ++ p) parts).
Proof.
  revert last k; induction parts as [|p parts IH]; intros last k ->.
  - reflexivity.
  - cbn [JS.mapi_from emitFields map List.concat].
    rewrite serializeField_parseField. cbn [parseField index].
    replace (last + 1 - last - 1) with 0 by lia.
    cbn [Z.to_nat List.repeat List.concat app].
    rewrite (IH (last + 1) (last + 1 + 1) eq_refl). now rewrite <- app_assoc.
Qed.

Lemma join_as_concat (sep p : jsstring) (rest : list jsstring) :
  JS.join sep (p :: rest) = p ++ List.concat (map (fun q => sep ++ q) rest).
Proof.
  revert p; induction rest as [|q rest IH]; intros p.
  - simpl. now rewrite app_nil_r.
  - rewrite join_cons2, IH. cbn [map List.concat]. now rewrite <- app_assoc.
Qed.

Lemma parsed_fields_sorted (parts : list jsstring) (k : Z) :
  StronglySorted byIndex (JS.mapi_from k (fun i s => parseField s d i) parts)
  /\ Forall (fun f => k <= index f)
            (JS.mapi_from k (fun i s => parseField s d i) parts).
Proof.
  revert k; induction parts as [|p parts IH]; intros k; simpl.
  - split; constructor.
  - destruct (IH (k + 1)) as [Hs Hf].
    assert (Hk : Forall (fun f => k <= index f)
                   (JS.mapi_from (k + 1) (fun i s => parseField s d i) parts)).
    { eapply Forall_impl; [|exact Hf]. simpl. intros; lia. }
    split.
    + constructor; [exact Hs|]. exact Hk.
    + constructor; [simpl; lia | exact Hk].
Qed.

End Emit.

(** ** The serializer *)

(** C10: for every string [s], delimiters record [d] and index [i],
    serializing the field that [reparseFieldFromString s d i] returns gives
    exactly [s] back, and that field has index [i]: the three-level split
    followed by the three-level join is the identity on strings. *)
Theorem reparse_then_serialize (s : jsstring) (d : HL7Delimiters) (i : Z) :
  serializeField (reparseFieldFromString s d i) d = s /\
  index (reparseFieldFromString s d i) = i.
Proof.
  unfold reparseFieldFromString, parseFieldString.
  split; [apply serializeField_parseField | reflexivity].
Qed.

(** C4: a non-header segment whose field indices are safe integers (at
    most 2^53 - 1 in absolute value, as every 1-based HL7 field index is;
    on them the loop counter of the source is exact) is serialized as its
    name followed by its fields in ascending index order, each preceded by
    one bare field delimiter per index skipped since the previous one
    (counting from 0); a segment holding only a field of index 5 has
    exactly four bare delimiters between the name and the delimiter that
    introduces the field's value. *)
Theorem serializeSegment_gap_padding (d : HL7Delimiters) :
  (forall seg,
      safeIndices seg ->
      exists sorted,
        Permutation sorted (fields seg) /\
        StronglySorted byIndex sorted /\
        Forall (fun f => isSafeInteger (index f)) sorted /\
        serializeSegment seg d = name seg ++ emitFields d 0 sorted) /\
  (forall segName reps,
      let f := {| index := 5; repeats := reps |} in
      serializeSegment {| name := segName; fields := [f] |} d
      = segName ++ (field d ++ field d ++ field d ++ field d)
                ++ field d ++ serializeField f d).
Proof.
  split.
  - intros seg Hsafe. exists (JS.sort index (fields seg)).
    split; [apply sort_perm|].
    split; [apply (sort_sorted index)|].
    split; [|apply serializeSegment_spec].
    eapply Permutation_Forall; [symmetry; apply sort_perm | exact Hsafe].
  - intros segName reps f. rewrite serializeSegment_spec. subst f.
    cbn [name fields JS.sort JS.insert emitFields index].
    change (Z.to_nat (5 - 0 - 1)) with 4%nat.
    cbn [List.repeat List.concat]. now rewrite !app_nil_r, <- !app_assoc.
Qed.

Lemma serializeSegment_gap_padding_witness :
  safeIndices sampleGaps /\
  (exists sorted,
      Permutation sorted (fields sampleGaps) /\
      StronglySorted byIndex sorted /\
      Forall (fun f => isSafeInteger (index f)) sorted /\
      serializeSegment sampleGaps getDefaultDelimiters
      = name sampleGaps ++ emitFields getDefaultDelimiters 0 sorted) /\
  serializeSegment sampleGaps getDefaultDelimiters = str "PID|a|||c".
Proof.
  assert (Hsafe : safeIndices sampleGaps).
  { unfold safeIndices, isSafeInteger, MAX_SAFE_INTEGER.
    repeat constructor; simpl; lia. }
  split; [exact Hsafe|].
  split; [|vm_compute; reflexivity].
  exact (proj1 (serializeSegment_gap_padding getDefaultDelimiters)
               sampleGaps Hsafe).
Defined.

Lemma serializeSegments_cons (m : HL7Message) (seg : SegmentNode)
  (rest : list SegmentNode) :
  segments m = seg :: rest ->
  serializeSegments m
  = (if jsstring_eqb (name seg) (str "MSH")
     then serializeMSHSegment seg (delimiters m)
     else serializeSegment seg (delimiters m))
    :: map (fun s => serializeSegment s (delimiters m)) rest.
Proof.
  intros E. unfold serializeSegments. rewrite E. cbn [JS.mapi_from].
  rewrite Z.eqb_refl, andb_true_r. f_equal.
  rewrite <- (mapi_from_const 1). apply mapi_from_ext.
  intros i s Hi. destruct (Z.eqb_spec i 0); [lia|].
  now rewrite andb_false_r.
Qed.

Lemma jsstring_eqb_refl (a : jsstring) : jsstring_eqb a a = true.
Proof. unfold jsstring_eqb. destruct (list_eq_dec ascii_dec a a); congruence. Qed.

Lemma serializeMSHSegment_spec (seg : SegmentNode) (d : HL7Delimiters) :
  serializeMSHSegment seg d
  = str "MSH" ++ field d
    ++ match find (fun f => index f =? 2) (fields seg) with
       | Some f => serializeField f d
       | None => component d ++ repeat d ++ escape d ++ subcomponent d
       end
    ++ emitFields d 2
         (JS.sort index (filter (fun f => 2 <? index f) (fields seg))).
Proof.
  unfold serializeMSHSegment. rewrite emitLoop_spec.
  destruct (find _ (fields seg)); now rewrite <- !app_assoc.
Qed.

(** C3: when segment 0 of a message is the header, [serializeHL7] writes
    for it the header name, the field delimiter, the value of the field of
    index 2 (or, when there is none, component + repeat + escape +
    subcomponent of the delimiters record), then the fields of index above
    2 in ascending order with gap padding counted from 2; no field of index
    1 or 2 is among the delimited fields. *)
Theorem serializeHL7_header (m : HL7Message) (seg : SegmentNode)
  (rest : list SegmentNode) (trailing : bool) :
  segments m = seg :: rest ->
  name seg = str "MSH" ->
  let d := delimiters m in
  exists others enc,
    Permutation others (filter (fun f => 2 <? index f) (fields seg)) /\
    StronglySorted byIndex others /\
    Forall (fun f => 2 < index f) others /\
    headerEncoding seg d enc /\
    serializeHL7 m trailing
    = JS.join [JS.CR]
        ((str "MSH" ++ field d ++ enc ++ emitFields d 2 others)
           :: map (fun s => serializeSegment s d) rest)
      ++ (if trailing then [JS.CR] else []).
Proof.
  intros Hsegs Hname d.
  set (sel := filter (fun f => 2 <? index f) (fields seg)).
  exists (JS.sort index sel).
  exists (match find (fun f => index f =? 2) (fields seg) with
          | Some f => serializeField f d
          | None => component d ++ repeat d ++ escape d ++ subcomponent d
          end).
  split; [apply sort_perm|].
  split; [apply (sort_sorted index)|].
  split.
  { eapply Permutation_Forall; [symmetry; apply sort_perm|].
    apply Forall_forall. intros f Hf. apply filter_In in Hf as [_ Hf].
    now apply Z.ltb_lt. }
  split.
  { unfold headerEncoding. destruct (find _ (fields seg)) as [f|].
    - split; [reflexivity|]. now intros v ->.
    - reflexivity. }
  unfold serializeHL7. rewrite (serializeSegments_cons m seg rest Hsegs).
  rewrite Hname, jsstring_eqb_refl, serializeMSHSegment_spec.
  unfold segment. fold d. fold sel.
  destruct trailing; [reflexivity | now rewrite app_nil_r].
Qed.

Lemma serializeHL7_header_witness :
  exists others enc,
    Permutation others
      (filter (fun f => 2 <? index f) (fields sampleHeader)) /\
    StronglySorted byIndex others /\
    Forall (fun f => 2 < index f) others /\
    headerEncoding sampleHeader getDefaultDelimiters enc /\
    serializeHL7 sampleMessage true
    = JS.join [JS.CR]
        ((str "MSH" ++ str "|" ++ enc ++ emitFields getDefaultDelimiters 2 others)
           :: map (fun s => serializeSegment s getDefaultDelimiters)
                  [ {| name := str "PID";
                       fields := [ createSimpleField (str "v") 5 ] |} ])
      ++ [JS.CR].
Proof.
  apply (serializeHL7_header sampleMessage sampleHeader _ true);
    reflexivity.
Defined.

(** ** The delimiter resolver and the header line *)

Section Header.

Lemma indexOf_0 (s needle : jsstring) :
  JS.indexOf s needle 0
  = match JS.search s needle with Some k => Z.of_nat k | None => -1 end.
Proof. unfold JS.indexOf. now rewrite clamp_neg by lia. Qed.

Lemma indexOf_header (a b c f : ascii) (after : jsstring) :
  JS.indexOf (a :: b :: c :: f :: after) [f] 4
  = match JS.search after [f] with
    | Some k => Z.of_nat (4 + k)
    | None => -1
    end.
Proof.
  unfold JS.indexOf. change 4 with (Z.of_nat 4). rewrite clamp_nat.
  cbn [List.length]. now rewrite Nat.min_l by lia.
Qed.



(** The slip: with no second occurrence of the field delimiter,
    [indexOf] gives [-1], and [substring(4, -1)] is [substring(0, 4)]. *)
Lemma substring_header_unterminated (a b c f : ascii) (after : jsstring) :
  JS.substring (a :: b :: c :: f :: after) 4 (-1) = [a; b; c; f].
Proof.
  unfold JS.substring. change 4 with (Z.of_nat 4).
  rewrite clamp_nat, clamp_neg by lia. cbn [List.length].
  now rewrite Nat.min_l by lia.
Qed.

Lemma startsWith_MSH (line : jsstring) :
  JS.startsWith line (str "MSH") = true ->
  exists rest, line = "M"%char :: "S"%char :: "H"%char :: rest.
Proof. intros H. apply startsWith_inv in H as [rest ->]. now exists rest. Qed.

Lemma at_single (s : jsstring) (i : nat) (v : jsstring) :
  JS.at_ s i = Some v -> exists c, v = [c].
Proof.
  unfold JS.at_. destruct (nth_error s i) as [c|]; [|discriminate].
  intros [= <-]. now exists c.
Qed.

Lemma orElse_single (s : jsstring) (i : nat) (x : ascii) :
  exists c, JS.orElse (JS.at_ s i) [x] = [c].
Proof.
  destruct (JS.at_ s i) as [v|] eqn:E; simpl.
  - now apply at_single in E.
  - now exists x.
Qed.

(** A line the resolver accepts, and the record it returns: every
    delimiter is one character. *)
Lemma extractDelimiters_line (line : jsstring) (d : HL7Delimiters) :
  extractDelimiters line = Some d ->
  exists f after c r e s,
    line = "M"%char :: "S"%char :: "H"%char :: f :: after /\
    (4 <= List.length after)%nat /\
    d = {| field := [f]; component := [c]; repeat := [r];
           escape := [e]; subcomponent := [s] |}.
Proof.
  unfold extractDelimiters. intros H.
  destruct (JS.startsWith line (str "MSH")) eqn:Hs; [|discriminate].
  destruct (JS.length line <? 8) eqn:Hl; [discriminate|]. cbn [negb orb] in H.
  apply startsWith_MSH in Hs as [rest ->].
  apply Z.ltb_ge in Hl. unfold JS.length in Hl. cbn [List.length] in Hl.
  destruct rest as [|f after]; [cbn [List.length] in Hl; lia|].
  exists f, after.
  cbn [nth_error option_map] in H. unfold JS.at_ at 1 in H.
  cbn [nth_error option_map] in H. revert H.
  set (enc := JS.substring _ _ _).
  destruct (JS.length enc <? 4).
  - intros [= <-].
    destruct (orElse_single enc 0 "^") as [c Hc].
    destruct (orElse_single enc 1 "~") as [r Hr].
    destruct (orElse_single enc 2 backslash) as [e He].
    destruct (orElse_single enc 3 "&") as [s Hs].
    exists c, r, e, s. split; [reflexivity|].
    split; [cbn [List.length] in Hl; lia|].
    change (str "^") with ["^"%char]. change (str "~") with ["~"%char].
    change (str "&") with ["&"%char].
    now rewrite Hc, Hr, He, Hs.
  - destruct (JS.at_ enc 0) as [c|] eqn:Ec; [|discriminate].
    destruct (JS.at_ enc 1) as [r|] eqn:Er; [|discriminate].
    destruct (JS.at_ enc 2) as [e|] eqn:Ee; [|discriminate].
    destruct (JS.at_ enc 3) as [s|] eqn:Es; [|discriminate].
    intros [= <-].
    apply at_single in Ec as [c' ->]. apply at_single in Er as [r' ->].
    apply at_single in Ee as [e' ->]. apply at_single in Es as [s' ->].
    exists c', r', e', s'. split; [reflexivity|].
    split; [cbn [List.length] in Hl; lia | reflexivity].
Qed.


Lemma search_free (c : ascii) (s : jsstring) :
  free (fun x => Ascii.eqb x c) s -> JS.search s [c] = None.
Proof.
  induction 1 as [|x s Hx _ IH]; [reflexivity|].
  cbn [JS.search]. now rewrite startsWith_single, Hx, IH.
Qed.

(** The resolver on a line whose encoding block runs to the end of the
    line: the slots are taken from the header name and the field
    delimiter. *)
Lemma extractDelimiters_unterminated (f : ascii) (block : jsstring) :
  free (fun x => Ascii.eqb x f) block ->
  (4 <= List.length block)%nat ->
  extractDelimiters (str "MSH" ++ f :: block)
  = Some {| field := [f]; component := str "M"; repeat := str "S";
            escape := str "H"; subcomponent := [f] |}.
Proof.
  intros Hfree Hlen. unfold extractDelimiters.
  change (str "MSH" ++ f :: block)
    with ("M"%char :: "S"%char :: "H"%char :: f :: block).
  replace (JS.startsWith _ (str "MSH")) with true by reflexivity.
  replace (JS.length _ <? 8) with false
    by (symmetry; apply Z.ltb_ge; unfold JS.length; cbn [List.length]; lia).
  cbn [negb orb]. unfold JS.at_ at 1. cbn [nth_error option_map].
  rewrite indexOf_header, (search_free f block Hfree).
  now rewrite substring_header_unterminated.
Qed.

Lemma encodingBlock_terminated (a b c f : ascii) (block rest : jsstring) :
  free (fun x => Ascii.eqb x f) block ->
  encodingBlock (a :: b :: c :: f :: block ++ f :: rest) = block.
Proof. intros H. now apply upTo_app. Qed.

Lemma encodingBlock_unterminated (a b c f : ascii) (block : jsstring) :
  free (fun x => Ascii.eqb x f) block ->
  encodingBlock (a :: b :: c :: f :: block) = block.
Proof. intros H. now apply upTo_all. Qed.

Lemma length_upTo (c : ascii) (s : jsstring) :
  (List.length (upTo c s) <= List.length s)%nat.
Proof.
  induction s as [|x s IH]; simpl; [lia|].
  destruct (Ascii.eqb x c); simpl; lia.
Qed.




(** C6: on the header line [MSH#!@$%], whose field delimiter is [#] and
    whose encoding block is [!@$%], the resolver returns component [M],
    repeat [S], escape [H] and subcomponent [#]; on the same header
    followed by the field delimiter it returns [!], [@], [$], [%]. *)
Theorem extractDelimiters_unterminated_block :
  encodingBlock (str "MSH#!@$%") = str "!@$%" /\
  extractDelimiters (str "MSH#!@$%")
  = Some {| field := str "#"; component := str "M"; repeat := str "S";
            escape := str "H"; subcomponent := str "#" |} /\
  extractDelimiters (str "MSH#!@$%#")
  = Some {| field := str "#"; component := str "!"; repeat := str "@";
            escape := str "$"; subcomponent := str "%" |}.
Proof. repeat split. Qed.

(** The header segment the parser builds. *)
Lemma parseMSHSegment_unfold (a b c f : ascii) (after : jsstring)
  (d : HL7Delimiters) :
  field d = [f] ->
  parseMSHSegment (a :: b :: c :: f :: after) d
  = {| name := str "MSH";
       fields :=
         createSimpleField [f] 1
         :: createSimpleField (upTo f after) 2
         :: match JS.search after [f] with
            | Some k =>
                JS.mapi_from 3 (fun i s => parseField s d i)
                             (JS.split (skipn (S k) after) [f])
            | None => []
            end |}.
Proof.
  intros Hf. unfold parseMSHSegment. rewrite Hf.
  change 4 with (Z.of_nat 4). rewrite substringFrom_skipn. cbn [skipn].
  rewrite indexOf_0.
  destruct (JS.search after [f]) as [k|] eqn:Hk.
  - replace (0 <=? Z.of_nat k) with true by (symmetry; apply Z.leb_le; lia).
    rewrite substring_firstn.
    replace (Z.of_nat k + 1) with (Z.of_nat (S k)) by lia.
    rewrite substringFrom_skipn.
    apply search_char_some in Hk as [-> _].
    pose proof (mapi_from_shift 0 3 (fun i s => parseField s d i)) as Hsh.
    cbv beta in Hsh. now rewrite Hsh.
  - apply search_char_none in Hk as [-> _]. reflexivity.
Qed.

End Header.

(** ** The parser *)

Section Parser.

(** The result depends on the input through its lines only. *)
Lemma parseHL7_lines (a b : jsstring) :
  segmentLinesOf a = segmentLinesOf b -> parseHL7 a = parseHL7 b.
Proof. unfold parseHL7. now intros ->. Qed.

(** What a successful parse has gone through. *)
Lemma parseHL7_success (rawInput : jsstring) (m : HL7Message) :
  parseHL7 rawInput = Success m ->
  exists mshLine others d segs,
    segmentLinesOf rawInput = mshLine :: others /\
    extractDelimiters mshLine = Some d /\
    parseSegments others d 1 = inl segs /\
    m = {| delimiters := d; segments := parseMSHSegment mshLine d :: segs |}.
Proof.
  unfold parseHL7.
  destruct (segmentLinesOf rawInput) as [|mshLine others] eqn:El;
    [discriminate|].
  destruct (negb (JS.startsWith mshLine (str "MSH"))); [discriminate|].
  destruct (extractDelimiters mshLine) as [d|] eqn:Ed; [|discriminate].
  destruct (parseSegments others d 1) as [segs|e] eqn:E; [|discriminate].
  intros [= <-]. now exists mshLine, others, d, segs.
Qed.

Lemma parseSegment_success (line : jsstring) (d : HL7Delimiters) (i : Z)
  (seg : SegmentNode) :
  parseSegment line d i = inl seg ->
  exists rest,
    JS.split line (field d) = name seg :: rest /\
    fields seg = JS.mapi_from 1 (fun k s => parseField s d k) rest.
Proof.
  unfold parseSegment.
  destruct (JS.split line (field d)) as [|nm rest]; [discriminate|].
  destruct (JS.length nm =? 0); [discriminate|].
  destruct (negb (segmentNamePattern nm)); [discriminate|].
  intros [= <-]. now exists rest.
Qed.

Lemma parseSegments_app (pre post : list jsstring) (d : HL7Delimiters)
  (i : Z) (segs : list SegmentNode) :
  parseSegments pre d i = inl segs ->
  parseSegments (pre ++ post) d i
  = match parseSegments post d (i + Z.of_nat (List.length pre)) with
    | inl more => inl (segs ++ more)
    | inr e => inr e
    end.
Proof.
  revert i segs; induction pre as [|line pre IH]; intros i segs H.
  - injection H as <-. cbn [app List.length Z.of_nat].
    rewrite Z.add_0_r. now destruct (parseSegments post d i).
  - cbn [parseSegments app] in *.
    destruct (parseSegment line d i) as [seg|e]; [|discriminate].
    destruct (parseSegments pre d (i + 1)) as [segs'|e] eqn:E; [|discriminate].
    injection H as <-. rewrite (IH (i + 1) segs' E).
    replace (i + 1 + Z.of_nat (List.length pre))
      with (i + Z.of_nat (List.length (line :: pre)))
      by (cbn [List.length]; lia).
    now destruct (parseSegments post d _).
Qed.

(** C2: after a successful parse, segment 0 is the header segment; its
    field of index 1 is a single leaf holding the field delimiter, the
    fourth character of the header line, and its field of index 2 is a
    single leaf holding the encoding-characters block of the header line as
    it is, not decomposed. *)
Theorem header_fields_1_and_2 (rawInput : jsstring) (m : HL7Message) :
  parseHL7 rawInput = Success m ->
  exists mshLine others f seg rest,
    segmentLinesOf rawInput = mshLine :: others /\
    nth_error mshLine 3 = Some f /\
    field (delimiters m) = [f] /\
    segments m = seg :: rest /\
    name seg = str "MSH" /\
    find (fun x => index x =? 1) (fields seg) = Some (createSimpleField [f] 1) /\
    find (fun x => index x =? 2) (fields seg)
    = Some (createSimpleField (encodingBlock mshLine) 2).
Proof.
  intros H. apply parseHL7_success in H as (mshLine & others & d & segs & Hl & Hd & _ & ->).
  apply extractDelimiters_line in Hd
    as (f & after & c & r & e & s & -> & _ & ->).
  exists ("M"%char :: "S"%char :: "H"%char :: f :: after), others, f.
  eexists _, segs. cbn [delimiters segments field].
  rewrite parseMSHSegment_unfold by reflexivity.
  repeat split; assumption.
Qed.

Lemma header_fields_1_and_2_witness :
  exists mshLine others f seg rest,
    segmentLinesOf sampleInput = mshLine :: others /\
    nth_error mshLine 3 = Some f /\
    field (delimiters sampleParsed) = [f] /\
    segments sampleParsed = seg :: rest /\
    name seg = str "MSH" /\
    find (fun x => index x =? 1) (fields seg) = Some (createSimpleField [f] 1) /\
    find (fun x => index x =? 2) (fields seg)
    = Some (createSimpleField (encodingBlock mshLine) 2).
Proof.
  apply (header_fields_1_and_2 sampleInput sampleParsed). reflexivity.
Defined.

(** The parse of a field is well formed when the three delimiters are
    not empty. *)
Lemma parseField_wellFormed (s : jsstring) (d : HL7Delimiters) (i : Z) :
  repeat d <> [] -> component d <> [] -> subcomponent d <> [] ->
  wellFormedField (parseField s d i).
Proof.
  intros Hr Hc Hs. unfold wellFormedField, parseField; cbn [repeats].
  destruct (repeat d) as [|r rs] eqn:Er; [congruence|].
  destruct (component d) as [|c cs] eqn:Ec; [congruence|].
  destruct (subcomponent d) as [|u us] eqn:Eu; [congruence|].
  split.
  - intros E. apply map_eq_nil in E. now apply split_nonempty in E.
  - apply Forall_forall. intros rep Hrep.
    apply in_map_iff in Hrep as (rs' & <- & _). cbn [components]. split.
    + intros E. apply map_eq_nil in E. now apply split_nonempty in E.
    + apply Forall_forall. intros comp Hcomp.
      apply in_map_iff in Hcomp as (cs' & <- & _). cbn [subcomponents].
      intros E. apply map_eq_nil in E. now apply split_nonempty in E.
Qed.

Lemma createSimpleField_wellFormed (v : jsstring) (i : Z) :
  wellFormedField (createSimpleField v i).
Proof.
  split; [discriminate|]. repeat constructor; discriminate.
Qed.

Lemma mapi_parseField_wellFormed (parts : list jsstring) (d : HL7Delimiters)
  (k : Z) (g : Z -> Z) :
  repeat d <> [] -> component d <> [] -> subcomponent d <> [] ->
  Forall wellFormedField
         (JS.mapi_from k (fun i s => parseField s d (g i)) parts).
Proof.
  intros Hr Hc Hs. revert k; induction parts as [|p parts IH]; intros k.
  - constructor.
  - constructor; [now apply parseField_wellFormed | apply IH].
Qed.

(** Text without any of the three delimiters is one leaf. *)
Lemma parseField_simple (s : jsstring) (r c u : ascii) (d : HL7Delimiters)
  (i : Z) :
  repeat d = [r] -> component d = [c] -> subcomponent d = [u] ->
  free (fun x => Ascii.eqb x r || Ascii.eqb x c || Ascii.eqb x u) s ->
  parseField s d i = createSimpleField s i.
Proof.
  intros Hr Hc Hu Hfree. unfold parseField, createSimpleField.
  rewrite Hr, Hc, Hu, !split_char.
  assert (Fr : free (fun x => Ascii.eqb x r) s).
  { eapply Forall_impl; [|exact Hfree]. cbv beta. intros x Hx.
    now destruct (Ascii.eqb x r). }
  assert (Fc : free (fun x => Ascii.eqb x c) s).
  { eapply Forall_impl; [|exact Hfree]. cbv beta. intros x Hx.
    destruct (Ascii.eqb x c); [|reflexivity]. now rewrite orb_true_r in Hx. }
  assert (Fu : free (fun x => Ascii.eqb x u) s).
  { eapply Forall_impl; [|exact Hfree]. cbv beta. intros x Hx.
    destruct (Ascii.eqb x u); [|reflexivity]. now rewrite orb_true_r in Hx. }
  rewrite (splitBy_free _ s Fr). cbn [map].
  rewrite split_char, (splitBy_free _ s Fc). cbn [map].
  now rewrite split_char, (splitBy_free _ s Fu).
Qed.

Lemma parseSegments_wellFormed (lines : list jsstring) (d : HL7Delimiters)
  (i : Z) (segs : list SegmentNode) :
  repeat d <> [] -> component d <> [] -> subcomponent d <> [] ->
  parseSegments lines d i = inl segs ->
  Forall (fun seg => Forall wellFormedField (fields seg)) segs.
Proof.
  intros Hr Hc Hs. revert i segs; induction lines as [|line lines IH];
    intros i segs H; cbn [parseSegments] in H.
  - injection H as <-. constructor.
  - destruct (parseSegment line d i) as [seg|e] eqn:E; [|discriminate].
    destruct (parseSegments lines d (i + 1)) as [segs'|e] eqn:E';
      [|discriminate].
    injection H as <-. constructor; [|now apply (IH (i + 1))].
    apply parseSegment_success in E as (rest & _ & ->).
    now apply (mapi_parseField_wellFormed rest d 1 (fun k => k)).
Qed.

(** C8, counterexample: that every segment of a parsed message has at
    least one field fails on a line that holds a segment name only. *)
Lemma segment_without_fields :
  exists m,
    parseHL7 (lines2 "MSH|^~\&|A" "PID") = Success m /\
    ~ Forall (fun seg => fields seg <> []) (segments m).
Proof.
  eexists. split; [reflexivity|].
  cbn [segments]. intros H.
  inversion H as [|? ? _ H']; subst. inversion H' as [|? ? Hpid _]; subst.
  now apply Hpid.
Qed.

(** C8, amended: a parsed message has at least one segment, its header
    segment has at least two fields, and in every segment every field has
    at least one repeat, every repeat at least one component and every
    component at least one subcomponent; a field text that holds none of
    the repeat, component and subcomponent delimiters parses to one repeat
    of one component of one subcomponent. *)
Theorem parsed_containers_nonempty (rawInput : jsstring) (m : HL7Message) :
  parseHL7 rawInput = Success m ->
  (exists header rest f1 f2 fs,
      segments m = header :: rest /\ fields header = f1 :: f2 :: fs) /\
  Forall (fun seg => Forall wellFormedField (fields seg)) (segments m) /\
  (exists r c u,
      repeat (delimiters m) = [r] /\ component (delimiters m) = [c] /\
      subcomponent (delimiters m) = [u] /\
      forall s i,
        free (fun x => Ascii.eqb x r || Ascii.eqb x c || Ascii.eqb x u) s ->
        parseField s (delimiters m) i = createSimpleField s i).
Proof.
  intros H.
  apply parseHL7_success in H as (mshLine & others & d & segs & _ & Hd & Hs & ->).
  apply extractDelimiters_line in Hd
    as (f & after & c & r & e & s & -> & _ & ->).
  cbn [delimiters segments repeat component subcomponent].
  rewrite parseMSHSegment_unfold by reflexivity.
  split; [|split].
  - now eexists _, segs, _, _, _.
  - constructor.
    + cbn [fields].
      constructor; [apply createSimpleField_wellFormed|].
      constructor; [apply createSimpleField_wellFormed|].
      destruct (JS.search after [f]); [|constructor].
      apply (mapi_parseField_wellFormed _ _ 3 (fun k => k)); discriminate.
    + eapply parseSegments_wellFormed; [| | |exact Hs]; discriminate.
  - exists r, c, s. repeat split. intros t i Ht.
    now apply (parseField_simple t r c s).
Qed.

Lemma parsed_containers_nonempty_witness :
  exists m,
    parseHL7 (lines2 "MSH|^~\&|A" "PID") = Success m /\
    (exists header rest f1 f2 fs,
        segments m = header :: rest /\ fields header = f1 :: f2 :: fs) /\
    Forall (fun seg => Forall wellFormedField (fields seg)) (segments m).
Proof.
  eexists. split; [reflexivity|].
  split; eapply (parsed_containers_nonempty (lines2 "MSH|^~\&|A" "PID"));
    reflexivity.
Defined.

End Parser.

(** ** Failures *)

(** C5, counterexample: that a later line whose leading token fails the
    name pattern gives the invalid-segment-name failure is false for an
    empty leading token: the parser returns another failure, which carries
    no name. *)
Lemma empty_leading_token_failure :
  segmentLinesOf (lines2 "MSH|^~\&|A" "|x") = [str "MSH|^~\&|A"; str "|x"] /\
  JS.split (str "|x") (str "|") = [[]; str "x"] /\
  segmentNamePattern [] = false /\
  parseHL7 (lines2 "MSH|^~\&|A" "|x") = Failure (emptySegmentError (str "|x") 1) /\
  forall nm,
    parseHL7 (lines2 "MSH|^~\&|A" "|x")
    <> Failure (invalidSegmentNameError (str "|x") nm 1).
Proof.
  repeat split. intros nm H. discriminate H.
Qed.

(** C5, amended: the empty string gives the empty-input failure; an input
    whose first line does not start with the header name gives the
    missing-header failure; when the header line is accepted and the lines
    before it are, a line whose leading token is not empty and fails the
    name pattern gives the invalid-segment-name failure with that line's
    index and the token, and a line whose leading token is empty gives the
    empty-segment failure with that line's index and no name; whatever
    follows that line, this one failure is the result. *)
Theorem parse_failures :
  parseHL7 [] = Failure emptyInputError /\
  (forall rawInput firstLine others,
      segmentLinesOf rawInput = firstLine :: others ->
      JS.startsWith firstLine (str "MSH") = false ->
      parseHL7 rawInput = Failure (missingHeaderError firstLine)) /\
  parseHL7 (str "PID|1||12345")
  = Failure (missingHeaderError (str "PID|1||12345")) /\
  (forall rawInput mshLine d pre bad post segs nm rest,
      segmentLinesOf rawInput = mshLine :: pre ++ bad :: post ->
      JS.startsWith mshLine (str "MSH") = true ->
      extractDelimiters mshLine = Some d ->
      parseSegments pre d 1 = inl segs ->
      JS.split bad (field d) = nm :: rest ->
      segmentNamePattern nm = false ->
      parseHL7 rawInput
      = Failure
          (if JS.length nm =? 0
           then emptySegmentError bad (1 + Z.of_nat (List.length pre))
           else invalidSegmentNameError bad nm
                  (1 + Z.of_nat (List.length pre)))).
Proof.
  split; [reflexivity|]. split; [|split; [reflexivity|]].
  - intros rawInput firstLine others Hl Hs. unfold parseHL7.
    now rewrite Hl, Hs.
  - intros rawInput mshLine d pre bad post segs nm rest Hl Hs Hd Hpre Hsplit Hpat.
    unfold parseHL7. rewrite Hl, Hs, Hd. cbn [negb].
    rewrite (parseSegments_app pre (bad :: post) d 1 segs Hpre).
    cbn [parseSegments]. unfold parseSegment. rewrite Hsplit, Hpat.
    now destruct (JS.length nm =? 0).
Qed.

Lemma parse_failures_witness :
  parseHL7 (lines2 "MSH|^~\&|A" "XY|1")
  = Failure (invalidSegmentNameError (str "XY|1") (str "XY") 1) /\
  parseHL7 (str "PID|1||12345")
  = Failure (missingHeaderError (str "PID|1||12345")).
Proof.
  destruct parse_failures as (_ & Hheader & _ & Hname). split.
  - exact (Hname (lines2 "MSH|^~\&|A" "XY|1") (str "MSH|^~\&|A")
             getDefaultDelimiters [] (str "XY|1") [] [] (str "XY") [str "1"]
             eq_refl eq_refl eq_refl eq_refl eq_refl eq_refl).
  - exact (Hheader (str "PID|1||12345") (str "PID|1||12345") []
             eq_refl eq_refl).
Defined.

(** ** Lines: trimming, line endings and the split into lines *)

Section Lines.

Lemma sameLines_filter (a b : list jsstring) :
  sameLines a b -> filter nonEmpty a = filter nonEmpty b.
Proof.
  destruct a as [|ha ta], b as [|hb tb]; simpl; try contradiction.
  intros [-> ->]. reflexivity.
Qed.

Lemma sameLines_refl (a : list jsstring) : a <> [] -> sameLines a a.
Proof. destruct a; [congruence | now split]. Qed.

Lemma sameLines_extend (c : ascii) (a b : list jsstring) :
  sameLines a b -> sameLines (JS.extend c a) (JS.extend c b).
Proof.
  destruct a as [|ha ta], b as [|hb tb]; simpl; try contradiction.
  intros [-> ->]. now split.
Qed.

Lemma sameLines_break (a b : list jsstring) :
  sameLines a b -> sameLines ([] :: a) ([] :: b).
Proof. intros H. split; [reflexivity | now apply sameLines_filter]. Qed.

Lemma sameLines_break2 (a b : list jsstring) :
  sameLines a b -> sameLines ([] :: a) ([] :: [] :: b).
Proof.
  intros H. split; [reflexivity|].
  change (filter nonEmpty ([] :: b)) with (filter nonEmpty b).
  now apply sameLines_filter.
Qed.

Lemma sameLines_trans (a b c : list jsstring) :
  sameLines a b -> sameLines b c -> sameLines a c.
Proof.
  destruct a, b, c; simpl; try contradiction.
  intros [-> ->] [-> ->]. now split.
Qed.

Lemma splitBy_cons_true (p : ascii -> bool) (c : ascii) (s : jsstring) :
  p c = true -> splitBy p (c :: s) = [] :: splitBy p s.
Proof. intros H. simpl. now rewrite H. Qed.

Lemma splitBy_cons_false (p : ascii -> bool) (c : ascii) (s : jsstring) :
  p c = false -> splitBy p (c :: s) = JS.extend c (splitBy p s).
Proof. intros H. simpl. now rewrite H. Qed.

Lemma normalize_CRLF (s : jsstring) :
  normalizeLineEndings (JS.CR :: JS.LF :: s) = JS.CR :: normalizeLineEndings s.
Proof. reflexivity. Qed.

Lemma replaceCRLF_other (c : ascii) (s : jsstring) :
  (c = JS.CR -> forall s', s <> JS.LF :: s') ->
  JS.replaceCRLF (c :: s) = c :: JS.replaceCRLF s.
Proof.
  intros H. destruct s as [|c' s']; [reflexivity|]. cbn [JS.replaceCRLF].
  destruct (Ascii.eqb_spec c JS.CR) as [Hc|_]; [|reflexivity].
  destruct (Ascii.eqb_spec c' JS.LF) as [->|_]; [|reflexivity].
  now destruct (H Hc s').
Qed.

Lemma normalize_break (c : ascii) (s : jsstring) :
  isLineBreak c = true ->
  (c = JS.CR -> forall s', s <> JS.LF :: s') ->
  normalizeLineEndings (c :: s) = JS.CR :: normalizeLineEndings s.
Proof.
  intros Hc H. unfold normalizeLineEndings.
  rewrite replaceCRLF_other by assumption.
  unfold isLineBreak in Hc. cbn [JS.replaceChar flat_map].
  destruct (Ascii.eqb_spec c JS.LF) as [_|Hlf]; [reflexivity|].
  destruct (Ascii.eqb_spec c JS.CR) as [->|_]; [reflexivity | discriminate].
Qed.

Lemma normalize_other (c : ascii) (s : jsstring) :
  isLineBreak c = false ->
  normalizeLineEndings (c :: s) = c :: normalizeLineEndings s.
Proof.
  intros Hc. unfold normalizeLineEndings, isLineBreak in *.
  apply orb_false_iff in Hc as [Hcr Hlf].
  rewrite replaceCRLF_other
    by (intros ->; rewrite Ascii.eqb_refl in Hcr; discriminate).
  cbn [JS.replaceChar flat_map]. now rewrite Hlf.
Qed.

(** The lines of the normalized text are the runs between line breaks of
    the text itself. *)
Lemma normalize_sameLines (s : jsstring) :
  sameLines (splitBy (fun x => Ascii.eqb x JS.CR) (normalizeLineEndings s))
            (splitBy isLineBreak s).
Proof.
  remember (List.length s) as n eqn:Hn.
  revert s Hn; induction n as [n IH] using lt_wf_ind; intros s Hn.
  destruct s as [|c s]; [now split|].
  assert (IHs : sameLines
                  (splitBy (fun x => Ascii.eqb x JS.CR) (normalizeLineEndings s))
                  (splitBy isLineBreak s)).
  { apply (IH (List.length s)); [subst n; simpl; lia | reflexivity]. }
  destruct (isLineBreak c) eqn:Hc.
  - rewrite (splitBy_cons_true isLineBreak) by assumption.
    destruct (Ascii.eqb_spec c JS.CR) as [->|Hcr].
    + destruct s as [|c' s'].
      * rewrite normalize_break by (reflexivity || discriminate).
        rewrite splitBy_cons_true by reflexivity. now apply sameLines_break.
      * destruct (Ascii.eqb_spec c' JS.LF) as [->|Hlf].
        -- rewrite normalize_CRLF.
           rewrite splitBy_cons_true by reflexivity.
           rewrite (splitBy_cons_true isLineBreak) by reflexivity.
           apply sameLines_break2.
           apply (IH (List.length s')); [subst n; simpl; lia | reflexivity].
        -- rewrite normalize_break by (reflexivity || congruence).
           rewrite splitBy_cons_true by reflexivity. now apply sameLines_break.
    + rewrite normalize_break by (assumption || contradiction).
      rewrite splitBy_cons_true by reflexivity. now apply sameLines_break.
  - rewrite normalize_other by assumption.
    rewrite (splitBy_cons_false isLineBreak) by assumption.
    rewrite splitBy_cons_false.
    + now apply sameLines_extend.
    + unfold isLineBreak in Hc. now apply orb_false_iff in Hc as [Hc _].
Qed.

Lemma segmentLinesOf_tokens (rawInput : jsstring) :
  segmentLinesOf rawInput = tokens (JS.trim rawInput).
Proof.
  unfold segmentLinesOf, tokens. rewrite split_char.
  apply sameLines_filter, normalize_sameLines.
Qed.

(** *** Tokens *)

Lemma filter_all {A : Type} (p : A -> bool) (l : list A) :
  Forall (fun x => p x = true) l -> filter p l = l.
Proof.
  induction 1 as [|x l Hx _ IH]; simpl; [reflexivity|]. now rewrite Hx, IH.
Qed.

Lemma tokens_good (s : jsstring) : Forall goodLine (tokens s).
Proof.
  unfold tokens. apply Forall_forall. intros l Hl.
  apply filter_In in Hl as [Hin Hne]. split; [exact Hne|].
  pose proof (splitBy_pieces_free isLineBreak s) as H.
  rewrite Forall_forall in H. now apply H.
Qed.

Lemma tokens_join (lines : list jsstring) :
  Forall goodLine lines -> tokens (JS.join [JS.CR] lines) = lines.
Proof.
  intros H. unfold tokens. destruct lines as [|l lines]; [reflexivity|].
  rewrite splitBy_join.
  - apply filter_all. eapply Forall_impl; [|exact H]. now intros a [Ha _].
  - reflexivity.
  - discriminate.
  - eapply Forall_impl; [|exact H]. now intros a [_ Ha].
Qed.

Lemma nonEmpty_snoc (b : jsstring) (x : ascii) : nonEmpty (b ++ [x]) = true.
Proof.
  unfold nonEmpty, JS.length. apply Z.ltb_lt. rewrite length_app. simpl. lia.
Qed.

Lemma tokens_snoc (s : jsstring) (x : ascii) :
  isLineBreak x = false ->
  exists init b, tokens (s ++ [x]) = init ++ [b ++ [x]].
Proof.
  intros Hx.
  destruct (splitBy_app_free isLineBreak s [x]) as (init & b & _ & E).
  { now constructor. }
  exists (filter nonEmpty init), b. unfold tokens.
  rewrite E, filter_app. cbn [filter]. now rewrite nonEmpty_snoc.
Qed.

(** *** [trim] *)

Lemma lineBreak_whiteSpace (c : ascii) :
  isLineBreak c = true -> JS.isWhiteSpace c = true.
Proof.
  unfold isLineBreak. intros H. apply orb_true_iff in H as [H|H];
    apply Ascii.eqb_eq in H; subst c; reflexivity.
Qed.

Lemma trimStart_shape (s : jsstring) :
  JS.trimStart s = [] \/
  exists x t, JS.trimStart s = x :: t /\ JS.isWhiteSpace x = false.
Proof.
  induction s as [|c s IH]; simpl; [now left|].
  destruct (JS.isWhiteSpace c) eqn:E; [exact IH|].
  right. now exists c, s.
Qed.

Lemma trimStart_fixed (c : ascii) (s : jsstring) :
  JS.isWhiteSpace c = false -> JS.trimStart (c :: s) = c :: s.
Proof. intros H. simpl. now rewrite H. Qed.

Lemma trimEnd_fixed (b : jsstring) (x : ascii) :
  JS.isWhiteSpace x = false -> JS.trimEnd (b ++ [x]) = b ++ [x].
Proof.
  intros H. unfold JS.trimEnd. rewrite rev_app_distr. cbn [rev app].
  rewrite trimStart_fixed by assumption.
  cbn [rev]. now rewrite rev_involutive.
Qed.

Lemma trimEnd_whiteSpace (s : jsstring) (w : ascii) :
  JS.isWhiteSpace w = true -> JS.trimEnd (s ++ [w]) = JS.trimEnd s.
Proof.
  intros H. unfold JS.trimEnd. rewrite rev_app_distr. cbn [rev app].
  cbn [JS.trimStart]. now rewrite H.
Qed.

(** A trimmed text is empty or ends with a character that is not white
    space. *)
Lemma trim_shape (s : jsstring) :
  JS.trim s = [] \/
  exists b x, JS.trim s = b ++ [x] /\ JS.isWhiteSpace x = false.
Proof.
  unfold JS.trim, JS.trimEnd.
  destruct (trimStart_shape (rev (JS.trimStart s))) as [->|(x & t & -> & Hx)].
  - now left.
  - right. exists (rev t), x. now split.
Qed.

Lemma segmentLinesOf_shape (rawInput : jsstring) :
  Forall goodLine (segmentLinesOf rawInput) /\
  (segmentLinesOf rawInput = [] \/
   exists init b x,
     segmentLinesOf rawInput = init ++ [b ++ [x]] /\
     JS.isWhiteSpace x = false).
Proof.
  rewrite segmentLinesOf_tokens. split; [apply tokens_good|].
  destruct (trim_shape rawInput) as [->|(b & x & -> & Hx)]; [now left|].
  right. destruct (tokens_snoc b x) as (init & b' & E).
  - destruct (isLineBreak x) eqn:E; [|reflexivity].
    apply lineBreak_whiteSpace in E. congruence.
  - now exists init, b', x.
Qed.

Lemma join_last (sep : jsstring) (init : list jsstring) (b : jsstring)
  (x : ascii) :
  exists pre, JS.join sep (init ++ [b ++ [x]]) = pre ++ [x].
Proof.
  induction init as [|l init [pre IH]].
  - now exists b.
  - cbn [app]. rewrite join_cons by (now destruct init).
    rewrite IH. exists (l ++ sep ++ pre). now rewrite <- !app_assoc.
Qed.

Lemma join_head (sep : jsstring) (c : ascii) (l : jsstring)
  (rest : list jsstring) :
  exists t, JS.join sep ((c :: l) :: rest) = c :: t.
Proof. destruct rest; simpl; eauto. Qed.

(** The lines of a serialized text are the lines it was joined from. *)
Lemma segmentLinesOf_join (lines : list jsstring) (c x : ascii)
  (l b : jsstring) (others init : list jsstring) (trailing : bool) :
  Forall goodLine lines ->
  lines = (c :: l) :: others -> JS.isWhiteSpace c = false ->
  lines = init ++ [b ++ [x]] -> JS.isWhiteSpace x = false ->
  segmentLinesOf (JS.join [JS.CR] lines ++ (if trailing then [JS.CR] else []))
  = lines.
Proof.
  intros Hgood Hhead Hc Hlast Hx. rewrite segmentLinesOf_tokens.
  assert (Ht : JS.trim (JS.join [JS.CR] lines
                        ++ (if trailing then [JS.CR] else []))
               = JS.join [JS.CR] lines).
  { destruct (join_head [JS.CR] c l others) as [t Et].
    destruct (join_last [JS.CR] init b x) as [pre Ep].
    rewrite <- Hhead in Et. rewrite <- Hlast in Ep.
    unfold JS.trim. rewrite Et. cbn [app]. rewrite trimStart_fixed by assumption.
    rewrite <- Et. change (c :: t ++ ?u) with ((c :: t) ++ u). rewrite <- Et.
    destruct trailing.
    - rewrite trimEnd_whiteSpace by reflexivity. rewrite Ep.
      now apply trimEnd_fixed.
    - rewrite app_nil_r, Ep. now apply trimEnd_fixed. }
  rewrite Ht. now apply tokens_join.
Qed.

End Lines.

(** ** Round trip *)

Section RoundTrip.

Lemma concat_prefixed (sep : jsstring) (parts : list jsstring) :
  parts <> [] ->
  List.concat (map (fun p => sep ++ p) parts) = sep ++ JS.join sep parts.
Proof.
  destruct parts as [|p rest]; [congruence|]. intros _.
  rewrite join_as_concat. cbn [map List.concat]. now rewrite <- app_assoc.
Qed.

(** A parsed segment is serialized to the line it was parsed from. *)
Lemma serializeSegment_parseSegment (line : jsstring) (d : HL7Delimiters)
  (i : Z) (seg : SegmentNode) :
  parseSegment line d i = inl seg -> serializeSegment seg d = line.
Proof.
  intros H. apply parseSegment_success in H as (rest & Hsplit & Hfields).
  rewrite serializeSegment_spec, Hfields.
  rewrite (sort_id index) by apply (parsed_fields_sorted d rest 1).
  rewrite (emitFields_contiguous d rest 0 1 eq_refl).
  rewrite <- join_as_concat, <- Hsplit. apply join_split.
Qed.

Lemma serializeSegments_parseSegments (lines : list jsstring)
  (d : HL7Delimiters) (i : Z) (segs : list SegmentNode) :
  parseSegments lines d i = inl segs ->
  map (fun s => serializeSegment s d) segs = lines.
Proof.
  revert i segs; induction lines as [|line lines IH]; intros i segs H;
    cbn [parseSegments] in H.
  - now injection H as <-.
  - destruct (parseSegment line d i) as [seg|e] eqn:E; [|discriminate].
    destruct (parseSegments lines d (i + 1)) as [segs'|e] eqn:E';
      [|discriminate].
    injection H as <-. cbn [map]. f_equal.
    + now apply (serializeSegment_parseSegment line d i).
    + now apply (IH (i + 1)).
Qed.

Lemma find_header (a b : jsstring) (l : list FieldNode) :
  find (fun x => index x =? 2)
       (createSimpleField a 1 :: createSimpleField b 2 :: l)
  = Some (createSimpleField b 2).
Proof. reflexivity. Qed.

Lemma filter_header (a b : jsstring) (l : list FieldNode) :
  filter (fun x => 2 <? index x)
         (createSimpleField a 1 :: createSimpleField b 2 :: l)
  = filter (fun x => 2 <? index x) l.
Proof. reflexivity. Qed.

(** The header segment is serialized to the header line. *)
Lemma serializeMSHSegment_parseMSHSegment (f : ascii) (after : jsstring)
  (d : HL7Delimiters) :
  field d = [f] ->
  serializeMSHSegment (parseMSHSegment (str "MSH" ++ f :: after) d) d
  = str "MSH" ++ f :: after.
Proof.
  intros Hf.
  change (str "MSH" ++ f :: after)
    with ("M"%char :: "S"%char :: "H"%char :: f :: after) at 1.
  rewrite (parseMSHSegment_unfold _ _ _ f after d Hf).
  rewrite serializeMSHSegment_spec. cbn [fields].
  rewrite find_header, filter_header, serializeField_simple, Hf.
  destruct (JS.search after [f]) as [k|] eqn:Hk.
  - set (parts := JS.split (skipn (S k) after) [f]).
    destruct (parsed_fields_sorted d parts 3) as [Hsorted Hge].
    rewrite filter_all
      by (eapply Forall_impl; [|exact Hge]; cbv beta; intros x Hx;
          apply Z.ltb_lt; lia).
    rewrite (sort_id index) by exact Hsorted.
    rewrite (emitFields_contiguous d parts 2 3 eq_refl), Hf.
    rewrite concat_prefixed by apply split_nonempty.
    unfold parts. rewrite join_split.
    apply search_char_some in Hk as [_ Hk]. cbn [app]. now rewrite <- Hk.
  - apply search_char_none in Hk as [-> _]. cbn [filter JS.sort emitFields].
    now rewrite app_nil_r.
Qed.

(** Serializing a parsed message gives its lines back. *)
Lemma serializeSegments_parse (rawInput : jsstring) (m : HL7Message) :
  parseHL7 rawInput = Success m ->
  serializeSegments m = segmentLinesOf rawInput /\
  exists c l others,
    segmentLinesOf rawInput = (c :: l) :: others /\
    JS.isWhiteSpace c = false.
Proof.
  intros H.
  apply parseHL7_success in H as (mshLine & others & d & segs & Hl & Hd & Hs & ->).
  apply extractDelimiters_line in Hd
    as (f & after & c & r & e & s & -> & _ & ->).
  split; [|now exists "M"%char, ("S"%char :: "H"%char :: f :: after), others].
  erewrite serializeSegments_cons by reflexivity. cbn [delimiters].
  rewrite Hl. f_equal.
  - replace (name _) with (str "MSH")
      by (symmetry; now rewrite parseMSHSegment_unfold).
    rewrite jsstring_eqb_refl.
    now apply (serializeMSHSegment_parseMSHSegment f after).
  - now apply (serializeSegments_parseSegments others _ 1).
Qed.

(** C1: when [parseHL7] succeeds on a text with message [m], it succeeds
    on [serializeHL7 m] (with or without the trailing terminator) with the
    same message [m]: the same delimiters, segments, field indices, repeat,
    component and subcomponent structure and leaf values. *)
Theorem parse_serialize_roundtrip (rawInput : jsstring) (m : HL7Message)
  (trailing : bool) :
  parseHL7 rawInput = Success m ->
  parseHL7 (serializeHL7 m trailing) = Success m.
Proof.
  intros H. rewrite <- H. apply parseHL7_lines.
  destruct (serializeSegments_parse rawInput m H)
    as (Hser & c & l & others & Hhead & Hc).
  destruct (segmentLinesOf_shape rawInput) as [Hgood [Hnil|(init & b & x & Hlast & Hx)]].
  { rewrite Hnil in Hhead. discriminate. }
  unfold serializeHL7, segment. rewrite Hser.
  destruct trailing.
  - now apply (segmentLinesOf_join _ c x l b others init true).
  - rewrite <- (app_nil_r (JS.join _ _)).
    now apply (segmentLinesOf_join _ c x l b others init false).
Qed.

Lemma parse_serialize_roundtrip_witness :
  parseHL7 (serializeHL7 sampleParsed true) = Success sampleParsed.
Proof.
  apply (parse_serialize_roundtrip sampleInput sampleParsed true).
  reflexivity.
Defined.

End RoundTrip.

(** ** Line endings *)

Section LineEndings.

(** The replacement text: line breaks only, at least one. *)
Variable by_ : jsstring.
Hypothesis by_breaks : Forall (fun c => isLineBreak c = true) by_.
Hypothesis by_nonempty : by_ <> [].

Lemma replaceChar_cons (c x : ascii) (w s : jsstring) :
  JS.replaceChar c w (x :: s)
  = (if Ascii.eqb x c then w else [x]) ++ JS.replaceChar c w s.
Proof. reflexivity. Qed.

Lemma replaceChar_app (c : ascii) (w a b : jsstring) :
  JS.replaceChar c w (a ++ b) = JS.replaceChar c w a ++ JS.replaceChar c w b.
Proof. unfold JS.replaceChar. apply flat_map_app. Qed.

Lemma replaceChar_rev (c : ascii) (w s : jsstring) :
  rev (JS.replaceChar c w s) = JS.replaceChar c (rev w) (rev s).
Proof.
  induction s as [|x s IH]; [reflexivity|].
  rewrite replaceChar_cons, rev_app_distr, IH. cbn [rev].
  rewrite replaceChar_app, replaceChar_cons. cbn [JS.replaceChar flat_map].
  rewrite app_nil_r. now destruct (Ascii.eqb x c).
Qed.

Lemma trimStart_whiteSpace_app (w s : jsstring) :
  Forall (fun c => JS.isWhiteSpace c = true) w ->
  JS.trimStart (w ++ s) = JS.trimStart s.
Proof. induction 1 as [|c w Hc _ IH]; simpl; [reflexivity | now rewrite Hc]. Qed.

Lemma trimStart_replaceChar (w s : jsstring) :
  Forall (fun c => JS.isWhiteSpace c = true) w ->
  JS.trimStart (JS.replaceChar JS.CR w s)
  = JS.replaceChar JS.CR w (JS.trimStart s).
Proof.
  intros Hw. induction s as [|x s IH]; [reflexivity|].
  rewrite replaceChar_cons.
  destruct (Ascii.eqb_spec x JS.CR) as [->|Hx].
  - rewrite trimStart_whiteSpace_app by assumption. exact IH.
  - cbn [app JS.trimStart]. destruct (JS.isWhiteSpace x); [exact IH|].
    rewrite replaceChar_cons.
    now destruct (Ascii.eqb_spec x JS.CR) as [|_]; [contradiction|].
Qed.

Lemma by_whiteSpace : Forall (fun c => JS.isWhiteSpace c = true) by_.
Proof.
  eapply Forall_impl; [|exact by_breaks]. apply lineBreak_whiteSpace.
Qed.

(** Trimming commutes with the replacement of the line endings. *)
Lemma trim_expand (s : jsstring) :
  JS.trim (JS.replaceChar JS.CR by_ s) = JS.replaceChar JS.CR by_ (JS.trim s).
Proof.
  unfold JS.trim, JS.trimEnd.
  rewrite trimStart_replaceChar by apply by_whiteSpace.
  rewrite replaceChar_rev.
  rewrite trimStart_replaceChar by (apply Forall_rev, by_whiteSpace).
  now rewrite replaceChar_rev, rev_involutive.
Qed.

Lemma filter_breaks_app (w t : jsstring) :
  Forall (fun c => isLineBreak c = true) w ->
  filter nonEmpty (splitBy isLineBreak (w ++ t))
  = filter nonEmpty (splitBy isLineBreak t).
Proof.
  induction 1 as [|c w Hc _ IH]; [reflexivity|].
  cbn [app]. rewrite splitBy_cons_true by assumption. exact IH.
Qed.

Lemma expand_sameLines (s : jsstring) :
  sameLines (splitBy isLineBreak (JS.replaceChar JS.CR by_ s))
            (splitBy isLineBreak s).
Proof.
  induction s as [|x s IH]; [now split|].
  rewrite replaceChar_cons.
  destruct (Ascii.eqb_spec x JS.CR) as [->|Hx].
  - rewrite (splitBy_cons_true isLineBreak JS.CR) by reflexivity.
    destruct by_ as [|b bs] eqn:Eb; [contradiction|].
    inversion by_breaks as [|? ? Hb Hbs]; subst.
    cbn [app]. rewrite splitBy_cons_true by assumption.
    split; [reflexivity|].
    rewrite filter_breaks_app by assumption. now apply sameLines_filter.
  - cbn [app]. destruct (isLineBreak x) eqn:E.
    + rewrite !splitBy_cons_true by assumption. now apply sameLines_break.
    + rewrite !splitBy_cons_false by assumption. now apply sameLines_extend.
Qed.

Lemma segmentLinesOf_expand (rawInput : jsstring) :
  segmentLinesOf (JS.replaceChar JS.CR by_ rawInput) = segmentLinesOf rawInput.
Proof.
  rewrite !segmentLinesOf_tokens, trim_expand.
  apply sameLines_filter, expand_sameLines.
Qed.

End LineEndings.

(** C9: replacing every CR of a text by LF, or by CR LF, does not change
    the result of [parseHL7]: when the text parses to a message, both
    variants parse to that same message. *)
Theorem line_ending_tolerance (rawInput : jsstring) :
  parseHL7 (JS.replaceChar JS.CR [JS.LF] rawInput) = parseHL7 rawInput /\
  parseHL7 (JS.replaceChar JS.CR [JS.CR; JS.LF] rawInput) = parseHL7 rawInput.
Proof.
  split; apply parseHL7_lines, segmentLinesOf_expand;
    (repeat constructor) || discriminate.
Qed.

(** ** Agreement with the test suite

    The expectations of [tests/parseSerialize.test.ts], and the nesting
    example, evaluated on the embedding. *)

Section Tests.

Local Ltac run := vm_compute; reflexivity.

Example test_parse_simple :
  exists m,
    parseHL7 SIMPLE_MESSAGE = Success m /\
    map name (segments m) = [str "MSH"; str "PID"] /\
    delimiters m = getDefaultDelimiters.
Proof. eexists. split; [run|]. split; run. Qed.

Example test_msh_1_and_2 :
  exists m msh others,
    parseHL7 SIMPLE_MESSAGE = Success m /\
    segments m = msh :: others /\
    find (fun f => index f =? 1) (fields msh)
    = Some (createSimpleField (str "|") 1) /\
    find (fun f => index f =? 2) (fields msh)
    = Some (createSimpleField (str "^~\&") 2).
Proof. eexists _, _, _. split; [run|]. split; [run|]. split; run. Qed.

Example test_nesting :
  parseField (str "DOE^JOHN&JR~SMITH^JANE&SR") getDefaultDelimiters 5
  = {| index := 5;
       repeats :=
         [ {| components :=
                [ leaf "DOE";
                  {| subcomponents :=
                       [ {| value := str "JOHN" |}; {| value := str "JR" |} ] |} ]
           |};
           {| components :=
                [ leaf "SMITH";
                  {| subcomponents :=
                       [ {| value := str "JANE" |}; {| value := str "SR" |} ] |} ]
           |} ] |}.
Proof. run. Qed.

Example test_roundtrip_all_delimiters :
  exists m,
    parseHL7 MESSAGE_WITH_ALL_DELIMITERS = Success m /\
    serializeHL7 m false = MESSAGE_WITH_ALL_DELIMITERS /\
    parseHL7 (serializeHL7 m true) = Success m.
Proof. eexists. split; [run|]. split; run. Qed.

Example test_custom_field_delimiter :
  exists m,
    parseHL7 CUSTOM_FIELD_MESSAGE = Success m /\
    field (delimiters m) = str "#" /\
    includes (serializeHL7 m true) (str "#") = true /\
    includes (serializeHL7 m true) (str "|") = false.
Proof. eexists. split; [run|]. split; [run|]. split; run. Qed.

Example test_trailing_segment_delimiter :
  parseHL7 (SIMPLE_MESSAGE ++ [JS.CR]) = parseHL7 SIMPLE_MESSAGE.
Proof. run. Qed.

Example test_minimum_valid_msh :
  exists m,
    parseHL7 (str "MSH|^~\&") = Success m /\
    map name (segments m) = [str "MSH"].
Proof. eexists. split; run. Qed.

End Tests.

(** * Further properties of the code *)

(** ** The field re-parser and its predicates *)

Section FieldPredicates.

Lemma length_extend (c : ascii) (l : list jsstring) :
  l <> [] -> List.length (JS.extend c l) = List.length l.
Proof. destruct l; [congruence | reflexivity]. Qed.

(** Without an occurrence of the separator there is one piece. *)
Lemma split_no_occurrence (s sep : jsstring) :
  JS.search s sep = None -> JS.split s sep = [s].
Proof.
  destruct sep as [|c sep].
  - destruct s; discriminate.
  - unfold JS.split. induction s as [|x s IH]; intros H.
    + reflexivity.
    + cbn [JS.search] in H. cbn [JS.split_scan].
      destruct (JS.startsWith (x :: s) (c :: sep)); [discriminate|].
      destruct (JS.search s (c :: sep)); [discriminate|].
      now rewrite IH.
Qed.

(** With an occurrence of a non-empty separator there are at least two. *)
Lemma split_occurrence (s sep : jsstring) (k : nat) :
  sep <> [] -> JS.search s sep = Some k ->
  (2 <= List.length (JS.split s sep))%nat.
Proof.
  intros Hsep. destruct sep as [|c sep]; [congruence|]. unfold JS.split.
  revert k; induction s as [|x s IH]; intros k H.
  - discriminate.
  - cbn [JS.search] in H. cbn [JS.split_scan].
    destruct (JS.startsWith (x :: s) (c :: sep)).
    + set (r := JS.split_scan (c :: sep) (List.length (c :: sep) - 1) s).
      assert (Hne : r <> []) by apply split_scan_nonempty.
      destruct r; [congruence | simpl; lia].
    + destruct (JS.search s (c :: sep)) as [j|]; [|discriminate].
      rewrite length_extend by apply split_scan_nonempty. now apply (IH j).
Qed.

Lemma includes_false (s needle : jsstring) :
  includes s needle = false -> JS.search s needle = None.
Proof. unfold includes. now destruct (JS.search s needle). Qed.

Lemma includes_true (s needle : jsstring) :
  includes s needle = true -> exists k, JS.search s needle = Some k.
Proof. unfold includes. destruct (JS.search s needle); [eauto | discriminate]. Qed.

(** A text for which [containsDelimiters] is false re-parses to the simple
    field of that text, whatever the delimiters are. *)
Theorem reparse_without_delimiters (s : jsstring) (d : HL7Delimiters)
  (i : Z) :
  containsDelimiters s d = false ->
  reparseFieldFromString s d i = createSimpleField s i.
Proof.
  unfold containsDelimiters. intros H.
  apply orb_false_iff in H as [H Hu]. apply orb_false_iff in H as [Hr Hc].
  apply includes_false in Hr, Hc, Hu.
  unfold reparseFieldFromString, parseFieldString, parseField,
    createSimpleField.
  rewrite (split_no_occurrence _ _ Hr). cbn [map].
  rewrite (split_no_occurrence _ _ Hc). cbn [map].
  now rewrite (split_no_occurrence _ _ Hu).
Qed.

Lemma reparse_without_delimiters_witness :
  reparseFieldFromString (str "SMITH") getDefaultDelimiters 5
  = createSimpleField (str "SMITH") 5.
Proof.
  apply (reparse_without_delimiters (str "SMITH") getDefaultDelimiters 5).
  reflexivity.
Defined.

Lemma isSimple_two (A B : Type) (f : A -> B) (l : list A) :
  (2 <= List.length l)%nat -> exists x y t, map f l = x :: y :: t.
Proof.
  destruct l as [|a [|b l]]; simpl; try lia. intros _. now eexists _, _, _.
Qed.

(** With non-empty delimiters, the re-parsed field is simple exactly when
    the text contains none of the three delimiters. *)
Theorem isSimpleField_reparse (s : jsstring) (d : HL7Delimiters) (i : Z) :
  repeat d <> [] -> component d <> [] -> subcomponent d <> [] ->
  isSimpleField (reparseFieldFromString s d i)
  = negb (containsDelimiters s d).
Proof.
  intros Hr Hc Hu.
  unfold reparseFieldFromString, parseFieldString, parseField,
    containsDelimiters, isSimpleField. cbn [repeats].
  destruct (includes s (repeat d)) eqn:Er.
  { apply includes_true in Er as [k Er].
    destruct (isSimple_two _ _
                (fun repeatStr =>
                   {| components :=
                        map (fun componentStr =>
                               {| subcomponents :=
                                    map (fun subStr => {| value := subStr |})
                                        (JS.split componentStr (subcomponent d)) |})
                            (JS.split repeatStr (component d)) |})
                _ (split_occurrence s _ k Hr Er)) as (x & y & t & ->).
    reflexivity. }
  apply includes_false in Er. rewrite (split_no_occurrence _ _ Er).
  cbn [map components orb].
  destruct (includes s (component d)) eqn:Ec.
  { apply includes_true in Ec as [k Ec].
    destruct (isSimple_two _ _
                (fun componentStr =>
                   {| subcomponents :=
                        map (fun subStr => {| value := subStr |})
                            (JS.split componentStr (subcomponent d)) |})
                _ (split_occurrence s _ k Hc Ec)) as (x & y & t & ->).
    reflexivity. }
  apply includes_false in Ec. rewrite (split_no_occurrence _ _ Ec).
  cbn [map subcomponents orb].
  destruct (includes s (subcomponent d)) eqn:Eu.
  { apply includes_true in Eu as [k Eu].
    destruct (isSimple_two _ _ (fun subStr => {| value := subStr |})
                _ (split_occurrence s _ k Hu Eu)) as (x & y & t & ->).
    reflexivity. }
  apply includes_false in Eu. now rewrite (split_no_occurrence _ _ Eu).
Qed.

Lemma isSimpleField_reparse_witness :
  isSimpleField
    (reparseFieldFromString (str "SMITH^JOHN~DOE^JANE") getDefaultDelimiters 5)
  = negb (containsDelimiters (str "SMITH^JOHN~DOE^JANE") getDefaultDelimiters).
Proof.
  apply (isSimpleField_reparse (str "SMITH^JOHN~DOE^JANE")
           getDefaultDelimiters 5); discriminate.
Defined.

(** A field has a simple value exactly when it is the simple field of that
    value. *)
Lemma getSimpleFieldValue_spec (f : FieldNode) (v : jsstring) :
  getSimpleFieldValue f = Some v <-> f = createSimpleField v (index f).
Proof.
  unfold getSimpleFieldValue, createSimpleField. split.
  - destruct f as [i [|[[|[[|[v' ] [|? ?]] ] [|? ?]]] [|? ?]]]; cbn;
      try discriminate.
    now intros [= ->].
  - intros ->. reflexivity.
Qed.

(** When [getSimpleFieldValue] returns a value, the field is the simple
    field of that value, its display string is the value whatever the
    delimiters are, and [isSimpleField] holds. *)
Theorem simple_field_display (f : FieldNode) (v : jsstring)
  (d : HL7Delimiters) :
  getSimpleFieldValue f = Some v ->
  f = createSimpleField v (index f) /\
  getFieldDisplayString f d = v /\ isSimpleField f = true.
Proof.
  intros H. apply getSimpleFieldValue_spec in H. split; [exact H|].
  rewrite H. split; reflexivity.
Qed.

Lemma simple_field_display_witness :
  createSimpleField (str "a^b") 3
  = createSimpleField (str "a^b") (index (createSimpleField (str "a^b") 3)) /\
  getFieldDisplayString (createSimpleField (str "a^b") 3) getDefaultDelimiters
  = str "a^b" /\
  isSimpleField (createSimpleField (str "a^b") 3) = true.
Proof.
  apply (simple_field_display (createSimpleField (str "a^b") 3) (str "a^b")).
  reflexivity.
Defined.

End FieldPredicates.

(** ** [isValidHL7] and the parser *)

Section Validity.

Lemma trimStart_snoc (a : jsstring) (x : ascii) :
  JS.isWhiteSpace x = false -> exists u, JS.trimStart (a ++ [x]) = u ++ [x].
Proof.
  intros Hx. induction a as [|c a [u IH]]; simpl.
  - rewrite Hx. now exists [].
  - destruct (JS.isWhiteSpace c); [now exists u|]. now exists (c :: a).
Qed.

(** A trimmed text is empty or starts with a character that is not white
    space. *)
Lemma trim_head (s : jsstring) :
  JS.trim s = [] \/
  exists x t, JS.trim s = x :: t /\ JS.isWhiteSpace x = false.
Proof.
  unfold JS.trim, JS.trimEnd.
  destruct (trimStart_shape s) as [->|(x & t & -> & Hx)]; [now left|].
  right. cbn [rev]. destruct (trimStart_snoc (rev t) x Hx) as [u ->].
  rewrite rev_app_distr. cbn [rev app]. now exists x, (rev u).
Qed.

Lemma join_first (sep p : jsstring) (rest : list jsstring) :
  exists t, JS.join sep (p :: rest) = p ++ t.
Proof.
  destruct rest as [|q rest].
  - exists []. simpl. now rewrite app_nil_r.
  - rewrite join_cons2. eauto.
Qed.

(** The first line is the beginning of the normalized text. *)
Lemma first_line (rawInput mshLine : jsstring) (others : list jsstring) :
  segmentLinesOf rawInput = mshLine :: others ->
  exists t, normalizeLineEndings (JS.trim rawInput) = mshLine ++ t.
Proof.
  unfold segmentLinesOf. rewrite split_char.
  remember (normalizeLineEndings (JS.trim rawInput)) as n eqn:Hn0.
  intros H.
  assert (Hn : exists x n', n = x :: n' /\ Ascii.eqb x JS.CR = false).
  { subst n. destruct (trim_head rawInput) as [E|(x & t & E & Hx)];
      rewrite E in *.
    - discriminate H.
    - assert (Hb : isLineBreak x = false).
      { destruct (isLineBreak x) eqn:Eb; [|reflexivity].
        apply lineBreak_whiteSpace in Eb. congruence. }
      rewrite normalize_other by assumption. eexists _, _. split; [reflexivity|].
      unfold isLineBreak in Hb. now apply orb_false_iff in Hb as [Hb _]. }
  destruct Hn as (x & n' & En & Hx).
  pose proof (join_split n [JS.CR]) as Hj. rewrite split_char in Hj.
  rewrite En in H, Hj. rewrite splitBy_cons_false in H, Hj by assumption.
  pose proof (splitBy_nonempty (fun c => Ascii.eqb c JS.CR) n') as Hne.
  destruct (splitBy _ n') as [|h tl]; [congruence|].
  cbn [JS.extend filter] in H, Hj.
  change (nonEmpty (x :: h)) with true in H. injection H as <- _.
  destruct (join_first [JS.CR] (x :: h) tl) as [t Et].
  exists t. rewrite En, <- Hj. exact Et.
Qed.

Lemma startsWith_app_l (s t pre : jsstring) :
  JS.startsWith s pre = true -> JS.startsWith (s ++ t) pre = true.
Proof.
  intros H. apply startsWith_inv in H as [rest ->].
  rewrite <- app_assoc. apply startsWith_app.
Qed.

(** On every input the parser accepts, [isValidHL7] is true unless the
    normalized text has exactly 8 characters. *)
Theorem isValidHL7_on_parsed (rawInput : jsstring) (m : HL7Message) :
  parseHL7 rawInput = Success m ->
  isValidHL7 rawInput
  = negb (JS.length (normalizeLineEndings (JS.trim rawInput)) =? 8).
Proof.
  intros H.
  apply parseHL7_success in H as (mshLine & others & d & segs & Hl & Hd & _ & _).
  apply extractDelimiters_line in Hd
    as (f & after & c & r & e & s & -> & Hlen & _).
  destruct (first_line _ _ _ Hl) as [t Ht].
  unfold isValidHL7. rewrite Ht.
  rewrite startsWith_app_l by reflexivity. cbn [andb].
  unfold JS.length. rewrite length_app. cbn [List.length].
  destruct (Z.ltb_spec 8 (Z.of_nat (S (S (S (S (List.length after))))
                                      + List.length t)));
    destruct (Z.eqb_spec (Z.of_nat (S (S (S (S (List.length after))))
                                      + List.length t)) 8);
    try reflexivity; lia.
Qed.

Lemma isValidHL7_on_parsed_witness :
  isValidHL7 (str "MSH|^~\&") = false /\
  isValidHL7 sampleInput = true.
Proof.
  split.
  - apply (isValidHL7_on_parsed (str "MSH|^~\&")
             {| delimiters :=
                  {| field := str "|"; repeat := str "S"; component := str "M";
                     subcomponent := str "|"; escape := str "H" |};
                segments :=
                  [ {| name := str "MSH";
                       fields := [ createSimpleField (str "|") 1;
                                   createSimpleField (str "^~\&") 2 ] |} ] |}).
    reflexivity.
  - apply (isValidHL7_on_parsed sampleInput sampleParsed). reflexivity.
Defined.

Lemma parseSegment_error_message (line : jsstring) (d : HL7Delimiters)
  (i : Z) (e : ParseError) :
  parseSegment line d i = inr e ->
  exists t, message e = "E"%char :: t \/ message e = "I"%char :: t.
Proof.
  unfold parseSegment. destruct (JS.split line (field d)) as [|nm rest].
  - intros [= <-]. eexists. left. reflexivity.
  - destruct (JS.length nm =? 0).
    + intros [= <-]. eexists. left. reflexivity.
    + destruct (negb (segmentNamePattern nm)); [|discriminate].
      intros [= <-]. eexists. right. reflexivity.
Qed.

Lemma parseSegments_error_message (lines : list jsstring)
  (d : HL7Delimiters) (i : Z) (e : ParseError) :
  parseSegments lines d i = inr e ->
  exists t, message e = "E"%char :: t \/ message e = "I"%char :: t.
Proof.
  revert i; induction lines as [|line lines IH]; intros i H;
    cbn [parseSegments] in H; [discriminate|].
  destruct (parseSegment line d i) as [seg|e'] eqn:E.
  - destruct (parseSegments lines d (i + 1)) as [segs|e'] eqn:E';
      [discriminate|].
    injection H as <-. now apply (IH (i + 1)).
  - injection H as <-. now apply (parseSegment_error_message line d i).
Qed.

(** On an input for which [isValidHL7] is true the parser finds a first
    line that starts with the header name: it fails neither for an empty
    input nor for a missing header. *)
Theorem isValidHL7_finds_header (rawInput : jsstring) :
  isValidHL7 rawInput = true ->
  (exists mshLine others,
      segmentLinesOf rawInput = mshLine :: others /\
      JS.startsWith mshLine (str "MSH") = true) /\
  (forall e,
      parseHL7 rawInput = Failure e ->
      message e <> str "No segments found in input" /\
      message e <> str "HL7 message must start with MSH segment").
Proof.
  unfold isValidHL7. intros H. apply andb_true_iff in H as [H _].
  apply startsWith_MSH in H as [rest Hn].
  assert (Hl : exists h others,
             segmentLinesOf rawInput
             = ("M"%char :: "S"%char :: "H"%char :: h) :: others).
  { unfold segmentLinesOf. rewrite split_char, Hn.
    rewrite !splitBy_cons_false by reflexivity.
    pose proof (splitBy_nonempty (fun c => Ascii.eqb c JS.CR) rest) as Hne.
    destruct (splitBy _ rest) as [|h tl]; [congruence|].
    cbn [JS.extend filter].
    change (0 <? JS.length ("M"%char :: "S"%char :: "H"%char :: h)) with true.
    cbv iota. eexists _, _. reflexivity. }
  destruct Hl as (h & others & Hl). split.
  - exists ("M"%char :: "S"%char :: "H"%char :: h), others.
    split; [exact Hl | reflexivity].
  - intros e. unfold parseHL7. rewrite Hl.
    change (JS.startsWith ("M"%char :: "S"%char :: "H"%char :: h) (str "MSH"))
      with true. cbn [negb].
    destruct (extractDelimiters _) as [d|].
    + destruct (parseSegments others d 1) as [segs|e'] eqn:E; [discriminate|].
      intros [= <-].
      destruct (parseSegments_error_message _ _ _ _ E) as [t [-> | ->]];
        split; discriminate.
    + intros [= <-]. split; discriminate.
Qed.

Lemma isValidHL7_finds_header_witness :
  exists mshLine others,
    segmentLinesOf (lines2 "MSH|" "PID|1||") = mshLine :: others /\
    JS.startsWith mshLine (str "MSH") = true.
Proof.
  apply (isValidHL7_finds_header (lines2 "MSH|" "PID|1||")). reflexivity.
Defined.

End Validity.

(** ** What a parsed message looks like *)

Section ParsedShape.

Lemma length_mapi_from {A B : Type} (k : Z) (f : Z -> A -> B) (l : list A) :
  List.length (JS.mapi_from k f l) = List.length l.
Proof.
  revert k; induction l as [|x l IH]; intros k; simpl; [reflexivity|].
  now rewrite IH.
Qed.

Lemma nth_error_mapi_from {A B : Type} (k : Z) (f : Z -> A -> B)
  (l : list A) (n : nat) :
  nth_error (JS.mapi_from k f l) n
  = option_map (f (k + Z.of_nat n)) (nth_error l n).
Proof.
  revert k n; induction l as [|x l IH]; intros k [|n]; simpl; try reflexivity.
  - now rewrite Z.add_0_r.
  - rewrite IH. do 2 f_equal. lia.
Qed.

Lemma parsed_indices_from (d : HL7Delimiters) (parts : list jsstring)
  (k : nat) :
  map index
      (JS.mapi_from (Z.of_nat k) (fun i s => parseField s d i) parts)
  = map Z.of_nat (seq k (List.length parts)).
Proof.
  revert k; induction parts as [|p parts IH]; intros k; [reflexivity|].
  cbn [JS.mapi_from map List.length seq parseField index]. f_equal.
  replace (Z.of_nat k + 1) with (Z.of_nat (S k)) by lia. apply IH.
Qed.

Lemma parseSegments_indices (lines : list jsstring) (d : HL7Delimiters)
  (i : Z) (segs : list SegmentNode) :
  parseSegments lines d i = inl segs ->
  Forall (fun seg =>
            map index (fields seg)
            = map Z.of_nat (seq 1 (List.length (fields seg)))) segs.
Proof.
  revert i segs; induction lines as [|line lines IH]; intros i segs H;
    cbn [parseSegments] in H.
  - injection H as <-. constructor.
  - destruct (parseSegment line d i) as [seg|e] eqn:E; [|discriminate].
    destruct (parseSegments lines d (i + 1)) as [segs'|e] eqn:E';
      [|discriminate].
    injection H as <-. constructor; [|now apply (IH (i + 1))].
    apply parseSegment_success in E as (rest & _ & ->).
    rewrite length_mapi_from. apply (parsed_indices_from d rest 1).
Qed.

(** The fields of every segment of a parsed message are numbered 1, 2,
    ... in the order of the array, without gap or repetition. *)
Theorem parsed_indices_contiguous (rawInput : jsstring) (m : HL7Message) :
  parseHL7 rawInput = Success m ->
  Forall (fun seg =>
            map index (fields seg)
            = map Z.of_nat (seq 1 (List.length (fields seg))))
         (segments m).
Proof.
  intros H.
  apply parseHL7_success in H as (mshLine & others & d & segs & _ & Hd & Hs & ->).
  apply extractDelimiters_line in Hd
    as (f & after & c & r & e & s & -> & _ & ->).
  cbn [segments]. constructor; [|now apply parseSegments_indices in Hs].
  rewrite parseMSHSegment_unfold by reflexivity. cbn [fields].
  destruct (JS.search after [f]) as [k|]; [|reflexivity].
  cbn [map List.length seq index createSimpleField]. do 2 f_equal.
  rewrite length_mapi_from. apply (parsed_indices_from _ _ 3).
Qed.

Lemma parsed_indices_contiguous_witness :
  Forall (fun seg =>
            map index (fields seg)
            = map Z.of_nat (seq 1 (List.length (fields seg))))
         (segments sampleParsed).
Proof.
  apply (parsed_indices_contiguous sampleInput sampleParsed). reflexivity.
Defined.

Lemma parseSegment_name (line : jsstring) (d : HL7Delimiters) (i : Z)
  (seg : SegmentNode) :
  parseSegment line d i = inl seg ->
  JS.startsWith line (name seg) = true /\
  segmentNamePattern (name seg) = true.
Proof.
  unfold parseSegment. intros H.
  pose proof (join_split line (field d)) as Hj.
  destruct (JS.split line (field d)) as [|nm rest]; [discriminate|].
  destruct (JS.length nm =? 0); [discriminate|].
  destruct (segmentNamePattern nm) eqn:Hp; [|discriminate].
  injection H as <-. cbn [name]. split; [|exact Hp].
  destruct (join_first (field d) nm rest) as [t Et].
  rewrite <- Hj, Et. apply startsWith_app.
Qed.

Lemma parseSegments_names (lines : list jsstring) (d : HL7Delimiters)
  (i : Z) (segs : list SegmentNode) :
  parseSegments lines d i = inl segs ->
  Forall2 (fun line seg =>
             JS.startsWith line (name seg) = true /\
             segmentNamePattern (name seg) = true) lines segs.
Proof.
  revert i segs; induction lines as [|line lines IH]; intros i segs H;
    cbn [parseSegments] in H.
  - injection H as <-. constructor.
  - destruct (parseSegment line d i) as [seg|e] eqn:E; [|discriminate].
    destruct (parseSegments lines d (i + 1)) as [segs'|e] eqn:E';
      [|discriminate].
    injection H as <-. constructor; [|now apply (IH (i + 1))].
    now apply (parseSegment_name line d i).
Qed.

(** A parsed message has one segment per line of the input, in order; the
    name of each is the beginning of its line and has the form one
    upper-case letter, then two upper-case letters or digits. *)
Theorem parsed_segment_names (rawInput : jsstring) (m : HL7Message) :
  parseHL7 rawInput = Success m ->
  Forall2 (fun line seg =>
             JS.startsWith line (name seg) = true /\
             segmentNamePattern (name seg) = true)
          (segmentLinesOf rawInput) (segments m).
Proof.
  intros H.
  apply parseHL7_success in H as (mshLine & others & d & segs & -> & Hd & Hs & ->).
  apply extractDelimiters_line in Hd
    as (f & after & c & r & e & s & -> & _ & ->).
  cbn [segments]. constructor; [|now apply parseSegments_names in Hs].
  rewrite parseMSHSegment_unfold by reflexivity. split; reflexivity.
Qed.

Lemma parsed_segment_names_witness :
  Forall2 (fun line seg =>
             JS.startsWith line (name seg) = true /\
             segmentNamePattern (name seg) = true)
          (segmentLinesOf sampleInput) (segments sampleParsed).
Proof.
  apply (parsed_segment_names sampleInput sampleParsed). reflexivity.
Defined.

(** Serializing one segment of a parsed message on its own, as the header
    for segment 0 only, gives the line it was parsed from. *)
Theorem serializeSingleSegment_line (rawInput : jsstring) (m : HL7Message)
  (n : nat) (seg : SegmentNode) :
  parseHL7 rawInput = Success m ->
  nth_error (segments m) n = Some seg ->
  nth_error (segmentLinesOf rawInput) n
  = Some (serializeSingleSegment seg (delimiters m) (Nat.eqb n 0)).
Proof.
  intros H Hn.
  destruct (serializeSegments_parse rawInput m H) as [<- _].
  unfold serializeSegments. rewrite nth_error_mapi_from, Hn. cbn [option_map].
  f_equal. destruct n as [|n].
  - apply parseHL7_success in H as (mshLine & others & d & segs & _ & Hd & _ & ->).
    apply extractDelimiters_line in Hd
      as (f & after & c & r & e & s & -> & _ & ->).
    cbn [segments nth_error] in Hn. injection Hn as <-.
    now rewrite parseMSHSegment_unfold by reflexivity.
  - replace (0 + Z.of_nat (S n) =? 0) with false
      by (symmetry; apply Z.eqb_neq; lia).
    now rewrite andb_false_r.
Qed.

Lemma serializeSingleSegment_line_witness :
  nth_error (segmentLinesOf sampleInput) 1
  = Some (serializeSingleSegment
            {| name := str "PID"; fields := [ createSimpleField (str "1") 1 ] |}
            (delimiters sampleParsed) (Nat.eqb 1 0)).
Proof.
  apply (serializeSingleSegment_line sampleInput sampleParsed 1);
    reflexivity.
Defined.

Lemma trimEnd_whiteSpace_app (s w : jsstring) :
  Forall (fun c => JS.isWhiteSpace c = true) w ->
  JS.trimEnd (s ++ w) = JS.trimEnd s.
Proof.
  intros Hw. unfold JS.trimEnd. rewrite rev_app_distr.
  now rewrite trimStart_whiteSpace_app by now apply Forall_rev.
Qed.

Lemma trim_whiteSpace_app (s w : jsstring) :
  Forall (fun c => JS.isWhiteSpace c = true) w ->
  JS.trim (s ++ w) = JS.trim s.
Proof.
  intros Hw. unfold JS.trim. induction s as [|c s IH].
  - cbn [app]. rewrite <- (app_nil_r w).
    now rewrite trimStart_whiteSpace_app.
  - cbn [app JS.trimStart]. destruct (JS.isWhiteSpace c); [exact IH|].
    now apply (trimEnd_whiteSpace_app (c :: s)).
Qed.

(** White space before and after the text, line breaks included, does not
    change the result of the parser. *)
Theorem surrounding_whiteSpace_ignored (before rawInput after : jsstring) :
  Forall (fun c => JS.isWhiteSpace c = true) before ->
  Forall (fun c => JS.isWhiteSpace c = true) after ->
  parseHL7 (before ++ rawInput ++ after) = parseHL7 rawInput.
Proof.
  intros Hb Ha. apply parseHL7_lines. unfold segmentLinesOf. do 3 f_equal.
  transitivity (JS.trim (rawInput ++ after)).
  - unfold JS.trim. now rewrite trimStart_whiteSpace_app.
  - now apply trim_whiteSpace_app.
Qed.

Lemma surrounding_whiteSpace_ignored_witness :
  parseHL7 ([JS.LF; " "%char] ++ sampleInput ++ [JS.CR; JS.CR; JS.LF])
  = parseHL7 sampleInput.
Proof.
  apply (surrounding_whiteSpace_ignored [JS.LF; " "%char] sampleInput
           [JS.CR; JS.CR; JS.LF]);
    repeat constructor.
Defined.

End ParsedShape.

(** ** The sort: stability and independence of the order of the array *)

Section SortFacts.

Context {A : Type}.
Variable key : A -> Z.

(** The sort is stable: the elements of one key keep their order. *)
Lemma filter_key_insert (j : Z) (x : A) (l : list A) :
  filter (fun y => key y =? j) (JS.insert key x l)
  = filter (fun y => key y =? j) (x :: l).
Proof.
  induction l as [|y l IH]; [reflexivity|].
  cbn [JS.insert]. destruct (Z.leb_spec (key x) (key y)) as [Hle|Hgt].
  - reflexivity.
  - cbn [filter] in *. rewrite IH.
    destruct (Z.eqb_spec (key x) j), (Z.eqb_spec (key y) j);
      try reflexivity; lia.
Qed.

Lemma filter_key_sort (j : Z) (l : list A) :
  filter (fun y => key y =? j) (JS.sort key l)
  = filter (fun y => key y =? j) l.
Proof.
  induction l as [|x l IH]; [reflexivity|].
  cbn [JS.sort]. rewrite filter_key_insert. cbn [filter]. now rewrite IH.
Qed.

Lemma find_filter (p : A -> bool) (l : list A) :
  find p l = hd_error (filter p l).
Proof.
  induction l as [|x l IH]; [reflexivity|]. simpl. now destruct (p x).
Qed.

Lemma find_key_sort (j : Z) (l : list A) :
  find (fun y => key y =? j) (JS.sort key l) = find (fun y => key y =? j) l.
Proof. now rewrite !find_filter, filter_key_sort. Qed.

Lemma key_injective (l : list A) (x y : A) :
  NoDup (map key l) -> In x l -> In y l -> key x = key y -> x = y.
Proof.
  induction l as [|z l IH]; intros Hnd Hx Hy Hk; [destruct Hx|].
  inversion Hnd as [|? ? Hz Hnd']; subst.
  destruct Hx as [->|Hx], Hy as [->|Hy].
  - reflexivity.
  - exfalso. apply Hz. rewrite Hk. now apply in_map.
  - exfalso. apply Hz. rewrite <- Hk. now apply in_map.
  - now apply IH.
Qed.

(** Two sorted arrangements of the same elements, all of different keys,
    are the same list. *)
Lemma sorted_unique (l1 l2 : list A) :
  StronglySorted (byKey key) l1 -> StronglySorted (byKey key) l2 ->
  Permutation l1 l2 -> NoDup (map key l1) -> l1 = l2.
Proof.
  intros H1; revert l2; induction H1 as [|x t1 Hs1 IH Hx]; intros l2 H2 Hp Hnd.
  - apply Permutation_nil in Hp. now subst.
  - destruct H2 as [|y t2 Hs2 Hy].
    + symmetry in Hp. now apply Permutation_nil in Hp.
    + assert (Exy : x = y).
      { assert (Hxin : In x (y :: t2))
          by (eapply Permutation_in; [exact Hp | now left]).
        assert (Hyin : In y (x :: t1))
          by (eapply Permutation_in; [symmetry; exact Hp | now left]).
        destruct Hxin as [->|Hxin]; [reflexivity|].
        destruct Hyin as [->|Hyin]; [reflexivity|].
        rewrite Forall_forall in Hx, Hy.
        pose proof (Hx _ Hyin) as Hle1. pose proof (Hy _ Hxin) as Hle2.
        unfold byKey in Hle1, Hle2.
        apply (key_injective (x :: t1)); [assumption | now left | now right|].
        lia. }
      subst y. f_equal. apply IH; [assumption | |].
      * now apply Permutation_cons_inv in Hp.
      * now inversion Hnd.
Qed.

Lemma sort_permutation_invariant (l l' : list A) :
  Permutation l l' -> NoDup (map key l) -> JS.sort key l = JS.sort key l'.
Proof.
  intros Hp Hnd. apply sorted_unique.
  - apply sort_sorted.
  - apply sort_sorted.
  - rewrite (sort_perm key l), (sort_perm key l'). exact Hp.
  - eapply Permutation_NoDup; [|exact Hnd].
    apply Permutation_map. symmetry. apply sort_perm.
Qed.

Lemma find_key_in (j : Z) (l : list A) (x : A) :
  NoDup (map key l) -> In x l -> key x = j ->
  find (fun y => key y =? j) l = Some x.
Proof.
  intros Hnd Hin Hk. induction l as [|y l IH]; [destruct Hin|].
  cbn [find]. destruct (Z.eqb_spec (key y) j) as [Hy|Hy].
  - f_equal. apply (key_injective (y :: l)); [assumption | now left | assumption | lia].
  - destruct Hin as [->|Hin]; [contradiction|].
    apply IH; [now inversion Hnd | assumption].
Qed.

Lemma find_permutation_invariant (j : Z) (l l' : list A) :
  Permutation l l' -> NoDup (map key l) ->
  find (fun y => key y =? j) l = find (fun y => key y =? j) l'.
Proof.
  intros Hp Hnd.
  assert (Hnd' : NoDup (map key l'))
    by (eapply Permutation_NoDup; [apply Permutation_map; exact Hp | exact Hnd]).
  destruct (find (fun y => key y =? j) l) as [x|] eqn:E.
  - apply find_some in E as [Hin Hk]. apply Z.eqb_eq in Hk.
    symmetry. apply find_key_in; [assumption | | assumption].
    eapply Permutation_in; eassumption.
  - destruct (find (fun y => key y =? j) l') as [x|] eqn:E'; [|reflexivity].
    apply find_some in E' as [Hin Hk].
    pose proof (find_none _ _ E x) as Hn. cbv beta in Hn.
    rewrite Hn in Hk; [discriminate|].
    eapply Permutation_in; [symmetry|]; eassumption.
Qed.

Lemma filter_permutation (p : A -> bool) (l l' : list A) :
  Permutation l l' -> Permutation (filter p l) (filter p l').
Proof.
  induction 1 as [|x l l' _ IH|x y l|l l' l'' _ IH1 _ IH2]; simpl.
  - constructor.
  - destruct (p x); [now constructor | assumption].
  - destruct (p x), (p y); try reflexivity. apply perm_swap.
  - now transitivity (filter p l').
Qed.

Lemma NoDup_map_filter (p : A -> bool) (l : list A) :
  NoDup (map key l) -> NoDup (map key (filter p l)).
Proof.
  induction l as [|x l IH]; intros H; [constructor|].
  inversion H as [|? ? Hx Hnd]; subst. cbn [filter].
  destruct (p x); [|now apply IH].
  cbn [map]. constructor; [|now apply IH].
  intros Hin. apply Hx. apply in_map_iff in Hin as (y & Hy & Hin).
  apply filter_In in Hin as [Hin _]. rewrite <- Hy. now apply in_map.
Qed.

End SortFacts.

(** When the fields of a segment have different indices, its serialization,
    as the header or not, does not depend on the order of the fields in
    the array. *)
Theorem serialization_ignores_field_order (a b : SegmentNode)
  (d : HL7Delimiters) (isMSH : bool) :
  name a = name b ->
  Permutation (fields a) (fields b) ->
  NoDup (map index (fields a)) ->
  serializeSingleSegment a d isMSH = serializeSingleSegment b d isMSH.
Proof.
  intros Hname Hp Hnd. unfold serializeSingleSegment. destruct isMSH.
  - rewrite !serializeMSHSegment_spec.
    rewrite (find_permutation_invariant index 2 _ _ Hp Hnd).
    rewrite (sort_permutation_invariant index
               (filter (fun f => 2 <? index f) (fields a))
               (filter (fun f => 2 <? index f) (fields b))).
    + reflexivity.
    + now apply filter_permutation.
    + now apply NoDup_map_filter.
  - rewrite !serializeSegment_spec, Hname.
    now rewrite (sort_permutation_invariant index _ _ Hp Hnd).
Qed.

Lemma serialization_ignores_field_order_witness :
  serializeSingleSegment sampleHeader getDefaultDelimiters true
  = serializeSingleSegment
      {| name := str "MSH";
         fields := [ createSimpleField (str "|") 1;
                     createSimpleField (str "^~\&") 2;
                     createSimpleField (str "A") 3;
                     createSimpleField (str "X") 4 ] |}
      getDefaultDelimiters true.
Proof.
  apply (serialization_ignores_field_order sampleHeader); [reflexivity | |].
  - cbn [fields sampleHeader].
    apply Permutation_cons_app with (l1 := [ _; _; _ ]) (l2 := []).
    reflexivity.
  - cbn. repeat constructor; cbn; intuition discriminate.
Defined.

(** ** [trimTrailingDelimiters] *)

Section TrimTrailing.

Lemma endsWith_nil (suffix : jsstring) :
  suffix <> [] -> JS.endsWith [] suffix = false.
Proof.
  intros H. unfold JS.endsWith. cbn [rev].
  destruct (rev suffix) as [|c r] eqn:E; [|reflexivity].
  apply (f_equal (@rev ascii)) in E. rewrite rev_involutive in E. now subst.
Qed.

Lemma endsWith_empty (s : jsstring) : JS.endsWith s [] = true.
Proof. reflexivity. Qed.

Lemma endsWith_snoc (s : jsstring) (x f : ascii) :
  JS.endsWith (s ++ [x]) [f] = Ascii.eqb x f.
Proof.
  unfold JS.endsWith. rewrite rev_app_distr. cbn [rev app].
  apply startsWith_single.
Qed.

Lemma dropLast_snoc (s : jsstring) (x : ascii) : JS.dropLast (s ++ [x]) = s.
Proof. apply removelast_last. Qed.

Lemma last_cases (s : jsstring) : s = [] \/ exists t x, s = t ++ [x].
Proof.
  induction s as [|c s IH]; [now left|]. right.
  destruct IH as [->|(t & x & ->)].
  - now exists [], c.
  - now exists (c :: t), x.
Qed.

(** The loop stops when the field delimiter is not empty. *)
Lemma trimLoop_stops (fuel : nat) (fd result : jsstring) :
  fd <> [] -> (List.length result < fuel)%nat ->
  exists t, trimLoop fuel fd result = Some t.
Proof.
  intros Hfd. revert result; induction fuel as [|fuel IH]; intros result Hlen;
    [lia|].
  cbn [trimLoop]. destruct (JS.endsWith result fd) eqn:E; [|eauto].
  destruct (last_cases result) as [->|(t & x & ->)].
  - now rewrite endsWith_nil in E.
  - rewrite dropLast_snoc. apply IH.
    rewrite length_app in Hlen. simpl in Hlen. lia.
Qed.

(** What the loop returns for a one-character delimiter: the text
    without the delimiters at its end. *)
Lemma trimLoop_result (fuel : nat) (f : ascii) (result t : jsstring) :
  trimLoop fuel [f] result = Some t ->
  (exists k, result = t ++ List.repeat f k) /\ JS.endsWith t [f] = false.
Proof.
  revert result; induction fuel as [|fuel IH]; intros result H;
    [discriminate|].
  cbn [trimLoop] in H. destruct (JS.endsWith result [f]) eqn:E.
  - destruct (last_cases result) as [->|(r & x & ->)].
    + now rewrite endsWith_nil in E.
    + rewrite endsWith_snoc in E. apply Ascii.eqb_eq in E; subst x.
      rewrite dropLast_snoc in H. destruct (IH _ H) as [[k ->] Hend].
      split; [|exact Hend]. exists (S k).
      rewrite <- app_assoc. f_equal. cbn [List.repeat]. symmetry. apply repeat_cons.
  - injection H as <-. split; [|exact E]. exists 0%nat. cbn.
    now rewrite app_nil_r.
Qed.

Lemma trimLoop_fixed (fuel : nat) (fd t : jsstring) :
  JS.endsWith t fd = false -> trimLoop (S fuel) fd t = Some t.
Proof. intros H. cbn [trimLoop]. now rewrite H. Qed.

Lemma trimLoop_prefix (fuel : nat) (fd result t : jsstring) :
  trimLoop fuel fd result = Some t ->
  JS.endsWith t fd = false /\ exists u, result = t ++ u.
Proof.
  revert result; induction fuel as [|fuel IH]; intros result H;
    [discriminate|].
  cbn [trimLoop] in H. destruct (JS.endsWith result fd) eqn:E.
  - destruct (IH _ H) as [Hend [u Hu]]. split; [exact Hend|].
    destruct (last_cases result) as [->|(r & x & ->)].
    + cbn in Hu. exists []. destruct t; [reflexivity | discriminate].
    + rewrite dropLast_snoc in Hu. subst r. exists (u ++ [x]).
      now rewrite app_assoc.
  - injection H as <-. split; [exact E|]. exists []. now rewrite app_nil_r.
Qed.

Lemma mapOption_Forall2 {A B : Type} (f : A -> option B) (l : list A)
  (ys : list B) :
  mapOption f l = Some ys <-> Forall2 (fun x y => f x = Some y) l ys.
Proof.
  revert ys; induction l as [|x l IH]; intros ys; cbn [mapOption].
  - split; [intros [= <-]; constructor | intros H; now inversion H].
  - split.
    + destruct (f x) as [y|] eqn:E; [|discriminate].
      destruct (mapOption f l) as [ys'|]; [|discriminate].
      intros [= <-]. constructor; [exact E | now apply IH].
    + intros H. inversion H as [|? y ? ys' Hy Hys]; subst.
      apply IH in Hys. now rewrite Hy, Hys.
Qed.

Lemma mapOption_total {A B : Type} (f : A -> option B) (l : list A) :
  Forall (fun x => exists y, f x = Some y) l ->
  exists ys, mapOption f l = Some ys.
Proof.
  induction 1 as [|x l [y Hy] _ [ys IH]]; cbn [mapOption]; [eauto|].
  rewrite Hy, IH. eauto.
Qed.

Lemma mapOption_none {A B : Type} (f : A -> option B) (l : list A) (x : A) :
  In x l -> f x = None -> mapOption f l = None.
Proof.
  induction l as [|y l IH]; intros Hin Hx; [destruct Hin|].
  cbn [mapOption]. destruct Hin as [->|Hin].
  - now rewrite Hx.
  - rewrite (IH Hin Hx). now destruct (f y).
Qed.

Lemma splitBy_piece_length (p : ascii -> bool) (s : jsstring) :
  Forall (fun piece => (List.length piece <= List.length s)%nat)
         (splitBy p s).
Proof.
  induction s as [|c s IH]; cbn [splitBy].
  - repeat constructor.
  - destruct (p c).
    + constructor; [simpl; lia|].
      eapply Forall_impl; [|exact IH]. simpl. intros; lia.
    + destruct (splitBy p s) as [|h t]; cbn [JS.extend].
      * constructor; [simpl; lia | constructor].
      * inversion IH; subst. constructor; [simpl; lia|].
        eapply Forall_impl; [|eassumption]. simpl. intros; lia.
Qed.

(** With a one-character field delimiter and fuel above the length of
    the text, [trimTrailingDelimiters] returns: every line that starts with
    the header name is kept, and every other line loses the field
    delimiters at its end, and nothing else. *)
Theorem trimTrailingDelimiters_result (fuel : nat) (serialized : jsstring)
  (d : HL7Delimiters) (f : ascii) :
  field d = [f] ->
  (List.length serialized < fuel)%nat ->
  exists trimmed,
    trimTrailingDelimiters fuel serialized d
    = Some (JS.join [JS.CR] trimmed) /\
    Forall2 (fun seg t =>
               if JS.startsWith seg (str "MSH")
               then t = seg
               else (exists k, seg = t ++ List.repeat f k) /\
                    JS.endsWith t [f] = false)
            (JS.split serialized [JS.CR]) trimmed.
Proof.
  intros Hf Hfuel. unfold trimTrailingDelimiters, segment.
  destruct (mapOption_total (trimSegment fuel d) (JS.split serialized [JS.CR]))
    as [trimmed Ht].
  { rewrite split_char.
    eapply Forall_impl; [|apply (splitBy_piece_length _ serialized)].
    cbv beta. intros seg Hlen. unfold trimSegment.
    destruct (JS.startsWith seg (str "MSH")); [eauto|].
    apply trimLoop_stops; [rewrite Hf; discriminate | lia]. }
  exists trimmed. rewrite Ht. split; [reflexivity|].
  apply mapOption_Forall2 in Ht.
  eapply Forall2_impl; [|exact Ht]. cbv beta. intros seg t.
  unfold trimSegment. destruct (JS.startsWith seg (str "MSH")).
  - now intros [= <-].
  - rewrite Hf. apply trimLoop_result.
Qed.

Lemma trimTrailingDelimiters_result_witness :
  exists trimmed,
    trimTrailingDelimiters 20 (lines2 "MSH|^~\&||" "PID|1||") getDefaultDelimiters
    = Some (JS.join [JS.CR] trimmed) /\
    Forall2 (fun seg t =>
               if JS.startsWith seg (str "MSH")
               then t = seg
               else (exists k, seg = t ++ List.repeat "|"%char k) /\
                    JS.endsWith t (str "|") = false)
            (JS.split (lines2 "MSH|^~\&||" "PID|1||") [JS.CR]) trimmed.
Proof.
  apply (trimTrailingDelimiters_result 20 (lines2 "MSH|^~\&||" "PID|1||")
           getDefaultDelimiters "|"%char); [reflexivity | vm_compute; lia].
Defined.

Lemma free_prefix (p : ascii -> bool) (t u : jsstring) :
  free p (t ++ u) -> free p t.
Proof. intros H. now apply Forall_app in H as [H _]. Qed.

(** Trimming a second time changes nothing. *)
Theorem trimTrailingDelimiters_idempotent (fuel fuel' : nat)
  (serialized out : jsstring) (d : HL7Delimiters) :
  trimTrailingDelimiters fuel serialized d = Some out ->
  (0 < fuel')%nat ->
  trimTrailingDelimiters fuel' out d = Some out.
Proof.
  unfold trimTrailingDelimiters, segment. intros H Hfuel.
  destruct (mapOption _ (JS.split serialized [JS.CR])) as [trimmed|] eqn:Ht;
    [|discriminate].
  injection H as <-. apply mapOption_Forall2 in Ht.
  assert (Hshape : trimmed <> [] /\
                   Forall (free (fun x => Ascii.eqb x JS.CR)) trimmed /\
                   Forall (fun t => trimSegment fuel' d t = Some t) trimmed).
  { rewrite split_char in Ht.
    pose proof (splitBy_nonempty (fun x => Ascii.eqb x JS.CR) serialized) as Hne.
    pose proof (splitBy_pieces_free (fun x => Ascii.eqb x JS.CR) serialized)
      as Hfree.
    induction Ht as [|seg t segs ts Hseg Hrest IH].
    - congruence.
    - split; [discriminate|].
      inversion Hfree as [|? ? Hfseg Hfsegs]; subst.
      assert (Ht : free (fun x => Ascii.eqb x JS.CR) t /\
                   trimSegment fuel' d t = Some t).
      { unfold trimSegment in *.
        destruct (JS.startsWith seg (str "MSH")) eqn:Es.
        - injection Hseg as <-. now rewrite Es.
        - apply trimLoop_prefix in Hseg as [Hend [u ->]].
          split; [now apply free_prefix in Hfseg|].
          destruct (JS.startsWith t (str "MSH")); [reflexivity|].
          destruct fuel' as [|n]; [lia|]. now apply trimLoop_fixed. }
      destruct Ht as [Hft Htt].
      destruct segs as [|seg' segs].
      + inversion Hrest; subst. repeat constructor; assumption.
      + destruct IH as (_ & IH1 & IH2); [discriminate | assumption|].
        split; constructor; assumption. }
  destruct Hshape as (Hne & Hfree & Hfix).
  rewrite split_char, (splitBy_join _ JS.CR trimmed eq_refl Hne Hfree).
  assert (Hm : mapOption (trimSegment fuel' d) trimmed = Some trimmed).
  { apply mapOption_Forall2. clear -Hfix.
    induction Hfix; constructor; assumption. }
  now rewrite Hm.
Qed.

Lemma trimTrailingDelimiters_idempotent_witness :
  trimTrailingDelimiters 1 (lines2 "MSH|^~\&||" "PID|1") getDefaultDelimiters
  = Some (lines2 "MSH|^~\&||" "PID|1").
Proof.
  apply (trimTrailingDelimiters_idempotent 20 1
           (lines2 "MSH|^~\&||" "PID|1||"));
    [vm_compute; reflexivity | lia].
Defined.

Lemma trimLoop_empty_delimiter (fuel : nat) (result : jsstring) :
  trimLoop fuel [] result = None.
Proof.
  revert result; induction fuel as [|fuel IH]; intros result; [reflexivity|].
  cbn [trimLoop]. rewrite endsWith_empty. apply IH.
Qed.

(** With an empty field delimiter the loop never stops on a line that
    does not start with the header name: whatever the fuel, there is no
    result. *)
Theorem trimTrailingDelimiters_empty_delimiter (serialized seg : jsstring)
  (d : HL7Delimiters) :
  field d = [] ->
  In seg (JS.split serialized [JS.CR]) ->
  JS.startsWith seg (str "MSH") = false ->
  forall fuel, trimTrailingDelimiters fuel serialized d = None.
Proof.
  intros Hf Hin Hs fuel. unfold trimTrailingDelimiters, segment.
  rewrite (mapOption_none _ _ seg Hin); [reflexivity|].
  unfold trimSegment. rewrite Hs, Hf. apply trimLoop_empty_delimiter.
Qed.

Lemma trimTrailingDelimiters_empty_delimiter_witness :
  trimTrailingDelimiters 1000 (lines2 "MSH|^~\&" "PID")
    {| field := []; repeat := str "~"; component := str "^";
       subcomponent := str "&"; escape := [backslash] |}
  = None.
Proof.
  apply (trimTrailingDelimiters_empty_delimiter
           (lines2 "MSH|^~\&" "PID") (str "PID"));
    [reflexivity | right; left; reflexivity | reflexivity].
Defined.

End TrimTrailing.

(** ** The edits of the store and the comparison of messages *)

Section ArrayAccess.

Context {A : Type}.

Lemma nth_inv (l : list A) (i : Z) (x : A) :
  JS.nth l i = Some x ->
  0 <= i /\ nth_error l (Z.to_nat i) = Some x /\
  (Z.to_nat i < List.length l)%nat.
Proof.
  unfold JS.nth. destruct (Z.ltb_spec i 0) as [Hlt|Hge]; [discriminate|].
  intros Hx. repeat split; [assumption | assumption|].
  apply nth_error_Some. congruence.
Qed.

Lemma nth_in_range (l : list A) (i : Z) :
  0 <= i -> (Z.to_nat i < List.length l)%nat ->
  exists x, JS.nth l i = Some x.
Proof.
  intros Hi Hlen. unfold JS.nth.
  destruct (Z.ltb_spec i 0); [lia|].
  destruct (nth_error l (Z.to_nat i)) as [x|] eqn:E; [eauto|].
  apply nth_error_None in E. lia.
Qed.

Lemma nth_negative (l : list A) (i : Z) : i < 0 -> JS.nth l i = None.
Proof.
  intros Hi. unfold JS.nth.
  destruct (Z.ltb_spec i 0) as [_|Hge]; [reflexivity | lia].
Qed.

Lemma length_setAt (l : list A) (k : nat) (x : A) :
  List.length (JS.setAt l k x) = List.length l.
Proof.
  revert k; induction l as [|y l IH]; intros [|k]; simpl; try reflexivity.
  now rewrite IH.
Qed.

Lemma nth_error_setAt_same (l : list A) (k : nat) (x : A) :
  (k < List.length l)%nat -> nth_error (JS.setAt l k x) k = Some x.
Proof.
  revert k; induction l as [|y l IH]; intros [|k] H; simpl in *; try lia.
  - reflexivity.
  - apply IH. lia.
Qed.

Lemma nth_error_setAt_other (l : list A) (k k' : nat) (x : A) :
  k <> k' -> nth_error (JS.setAt l k x) k' = nth_error l k'.
Proof.
  revert k k'; induction l as [|y l IH]; intros [|k] [|k'] H; simpl;
    try reflexivity; try congruence.
  apply IH. congruence.
Qed.

Lemma nth_setAt_same (l : list A) (i : Z) (x y : A) :
  JS.nth l i = Some y -> JS.nth (JS.setAt l (Z.to_nat i) x) i = Some x.
Proof.
  intros H. apply nth_inv in H as (Hi & _ & Hlen). unfold JS.nth.
  destruct (Z.ltb_spec i 0); [lia|]. now apply nth_error_setAt_same.
Qed.

Lemma nth_setAt_other (l : list A) (i i' : Z) (x : A) :
  0 <= i -> i' <> i -> JS.nth (JS.setAt l (Z.to_nat i) x) i' = JS.nth l i'.
Proof.
  intros Hi Hne. unfold JS.nth. destruct (Z.ltb_spec i' 0); [reflexivity|].
  apply nth_error_setAt_other. lia.
Qed.

Lemma Forall_setAt (P : A -> Prop) (l : list A) (k : nat) (x : A) :
  Forall P l -> P x -> Forall P (JS.setAt l k x).
Proof.
  intros Hl Hx. revert k; induction Hl as [|y l Hy Hl IH]; intros [|k]; simpl.
  - constructor.
  - constructor.
  - now constructor.
  - constructor; [exact Hy | apply IH].
Qed.

Lemma map_setAt_same {B : Type} (g : A -> B) (l : list A) (k : nat)
  (x y : A) :
  nth_error l k = Some y -> g x = g y -> map g (JS.setAt l k x) = map g l.
Proof.
  revert k; induction l as [|z l IH]; intros [|k] H Hg; simpl in *;
    try discriminate.
  - injection H as ->. now rewrite Hg.
  - f_equal. now apply IH.
Qed.

Variable p : A -> bool.

Lemma firstIndex_find (l : list A) :
  match JS.firstIndex p l with
  | Some k => exists x, find p l = Some x /\ nth_error l k = Some x
  | None => find p l = None
  end.
Proof.
  induction l as [|y l IH]; simpl; [reflexivity|].
  destruct (p y); [now exists y|].
  destruct (JS.firstIndex p l) as [k|]; simpl; assumption.
Qed.

Lemma findIndex_found (l : list A) (x : A) :
  find p l = Some x ->
  exists k, JS.findIndex p l = Z.of_nat k /\ JS.firstIndex p l = Some k.
Proof.
  intros H. unfold JS.findIndex. pose proof (firstIndex_find l) as Hf.
  destruct (JS.firstIndex p l) as [k|]; [now exists k | congruence].
Qed.

Lemma findIndex_missing (l : list A) :
  find p l = None -> JS.findIndex p l = -1.
Proof.
  intros H. unfold JS.findIndex. pose proof (firstIndex_find l) as Hf.
  destruct (JS.firstIndex p l) as [k|]; [|reflexivity].
  destruct Hf as (x & Hx & _). congruence.
Qed.

(** Writing at the first match an element that matches. *)
Lemma find_setAt_first (l : list A) (k : nat) (x : A) :
  JS.firstIndex p l = Some k -> p x = true ->
  find p (JS.setAt l k x) = Some x.
Proof.
  revert k; induction l as [|y l IH]; intros k H Hx; [discriminate|].
  cbn [JS.firstIndex] in H. destruct (p y) eqn:Ey.
  - injection H as <-. simpl. now rewrite Hx.
  - destruct (JS.firstIndex p l) as [j|]; [|discriminate].
    injection H as <-. simpl. rewrite Ey. now apply IH.
Qed.

(** It does not change what another predicate finds. *)
Lemma find_setAt_other (q : A -> bool) (l : list A) (k : nat) (x : A) :
  JS.firstIndex p l = Some k -> q x = false ->
  (forall y, p y = true -> q y = false) ->
  find q (JS.setAt l k x) = find q l.
Proof.
  intros H Hx Hpq. revert k H; induction l as [|y l IH]; intros k H;
    [discriminate|].
  cbn [JS.firstIndex] in H. destruct (p y) eqn:Ey.
  - injection H as <-. simpl. now rewrite Hx, (Hpq y Ey).
  - destruct (JS.firstIndex p l) as [j|]; [|discriminate].
    injection H as <-. simpl. destruct (q y); [reflexivity|]. now apply IH.
Qed.

Lemma find_snoc (q : A -> bool) (l : list A) (x : A) :
  find q (l ++ [x])
  = match find q l with
    | Some y => Some y
    | None => if q x then Some x else None
    end.
Proof.
  induction l as [|y l IH]; simpl; [reflexivity|]. now destruct (q y).
Qed.

End ArrayAccess.

Section FieldEdit.

Lemma find_putField_same (fs : list FieldNode) (newField : FieldNode) :
  find (fun f => index f =? index newField) (putField fs newField)
  = Some newField.
Proof.
  unfold putField.
  destruct (find (fun f => index f =? index newField) fs) as [x|] eqn:E.
  - destruct (findIndex_found _ _ _ E) as (k & -> & Hk).
    replace (0 <=? Z.of_nat k) with true by (symmetry; apply Z.leb_le; lia).
    rewrite Nat2Z.id. apply find_setAt_first; [exact Hk | apply Z.eqb_refl].
  - rewrite (findIndex_missing _ _ E). cbn [Z.leb Z.compare].
    rewrite find_key_sort, find_snoc, E. now rewrite Z.eqb_refl.
Qed.

Lemma find_putField_other (fs : list FieldNode) (newField : FieldNode)
  (j : Z) :
  j <> index newField ->
  find (fun f => index f =? j) (putField fs newField)
  = find (fun f => index f =? j) fs.
Proof.
  intros Hj. unfold putField.
  assert (Hq : (index newField =? j) = false) by (apply Z.eqb_neq; lia).
  destruct (find (fun f => index f =? index newField) fs) as [x|] eqn:E.
  - destruct (findIndex_found _ _ _ E) as (k & -> & Hk).
    replace (0 <=? Z.of_nat k) with true by (symmetry; apply Z.leb_le; lia).
    rewrite Nat2Z.id.
    apply (find_setAt_other (fun f => index f =? index newField));
      [exact Hk | exact Hq|].
    intros y Hy. apply Z.eqb_eq in Hy. apply Z.eqb_neq. lia.
  - rewrite (findIndex_missing _ _ E). cbn [Z.leb Z.compare].
    rewrite find_key_sort, find_snoc, Hq.
    now destruct (find (fun f => index f =? j) fs).
Qed.

Lemma Forall_putField (P : FieldNode -> Prop) (fs : list FieldNode)
  (newField : FieldNode) :
  Forall P fs -> P newField -> Forall P (putField fs newField).
Proof.
  intros Hfs Hnew. unfold putField.
  destruct (0 <=? JS.findIndex _ fs).
  - now apply Forall_setAt.
  - eapply Permutation_Forall; [symmetry; apply sort_perm|].
    apply Forall_app. split; [exact Hfs | now constructor].
Qed.

Lemma updateFieldFromString_unfold (m : HL7Message) (seg : SegmentNode)
  (i j : Z) (s : jsstring) :
  JS.nth (segments m) i = Some seg ->
  updateFieldFromString (Some m) i j s
  = Some {| delimiters := delimiters m;
            segments :=
              JS.setAt (segments m) (Z.to_nat i)
                {| name := name seg;
                   fields :=
                     putField (fields seg)
                              (reparseFieldFromString s (delimiters m) j) |} |}.
Proof. intros H. unfold updateFieldFromString. now rewrite H. Qed.

(** After [updateFieldFromString] on an existing segment, the field of the
    edited index is the re-parsed text: its index is the edited one and its
    display string is exactly the text entered. *)
Theorem updateFieldFromString_lookup (m : HL7Message) (seg : SegmentNode)
  (i j : Z) (s : jsstring) :
  JS.nth (segments m) i = Some seg ->
  let after := updateFieldFromString (Some m) i j s in
  getFieldValue after i j = Some (reparseFieldFromString s (delimiters m) j) /\
  (forall f, getFieldValue after i j = Some f ->
             index f = j /\ getFieldDisplayString f (delimiters m) = s).
Proof.
  intros H after.
  assert (Hget : getFieldValue after i j
                 = Some (reparseFieldFromString s (delimiters m) j)).
  { unfold after. rewrite (updateFieldFromString_unfold m seg i j s H).
    unfold getFieldValue. cbn [segments].
    rewrite (nth_setAt_same _ _ _ _ H). cbn [fields].
    apply (find_putField_same (fields seg)
             (reparseFieldFromString s (delimiters m) j)). }
  split; [exact Hget|].
  intros f Hf. rewrite Hget in Hf. injection Hf as <-.
  split; [reflexivity | apply serializeField_parseField].
Qed.

Lemma updateFieldFromString_lookup_witness :
  getFieldValue (updateFieldFromString (Some sampleParsed) 1 5 (str "DOE^JOHN"))
                1 5
  = Some (reparseFieldFromString (str "DOE^JOHN") getDefaultDelimiters 5).
Proof.
  apply (updateFieldFromString_lookup sampleParsed
           {| name := str "PID"; fields := [ createSimpleField (str "1") 1 ] |}
           1 5 (str "DOE^JOHN")).
  reflexivity.
Defined.

Lemma updateFieldFromString_keeps (m : HL7Message) (i j : Z)
  (s : jsstring) :
  exists m',
    updateFieldFromString (Some m) i j s = Some m' /\
    delimiters m' = delimiters m /\
    forall i' j',
      i' <> i \/ j' <> j ->
      getFieldValue (Some m') i' j' = getFieldValue (Some m) i' j'.
Proof.
  destruct (JS.nth (segments m) i) as [seg|] eqn:H.
  - rewrite (updateFieldFromString_unfold m seg i j s H). eexists.
    split; [reflexivity|]. cbn [delimiters segments].
    destruct (nth_inv _ _ _ H) as (Hi & Hn & _).
    split; [reflexivity|].
    intros i' j' Hne. unfold getFieldValue. cbn [segments].
    destruct (Z.eq_dec i' i) as [->|Hi'].
    + rewrite (nth_setAt_same _ _ _ _ H), H. cbn [fields].
      apply find_putField_other. cbn [index reparseFieldFromString
        parseFieldString parseField]. destruct Hne; congruence.
    + now rewrite nth_setAt_other.
  - exists m. unfold updateFieldFromString. rewrite H. repeat split.
Qed.

(** [updateFieldFromString] on a message always returns a message; it
    keeps the delimiters and the segment names, leaves every other field of
    every segment as it is, and, when the three delimiters are not empty,
    keeps the containers of every field non-empty when they were. *)
Theorem updateFieldFromString_frame (m : HL7Message) (i j : Z)
  (s : jsstring) :
  exists m',
    updateFieldFromString (Some m) i j s = Some m' /\
    delimiters m' = delimiters m /\
    map name (segments m') = map name (segments m) /\
    (forall i' j',
        i' <> i \/ j' <> j ->
        getFieldValue (Some m') i' j' = getFieldValue (Some m) i' j') /\
    (repeat (delimiters m) <> [] -> component (delimiters m) <> [] ->
     subcomponent (delimiters m) <> [] ->
     Forall (fun sg => Forall wellFormedField (fields sg)) (segments m) ->
     Forall (fun sg => Forall wellFormedField (fields sg)) (segments m')).
Proof.
  destruct (JS.nth (segments m) i) as [seg|] eqn:H.
  - rewrite (updateFieldFromString_unfold m seg i j s H). eexists.
    split; [reflexivity|]. cbn [delimiters segments].
    destruct (nth_inv _ _ _ H) as (Hi & Hn & _).
    split; [reflexivity|]. split; [|split].
    + now apply (map_setAt_same name _ _ _ seg).
    + intros i' j' Hne. unfold getFieldValue. cbn [segments].
      destruct (Z.eq_dec i' i) as [->|Hi'].
      * rewrite (nth_setAt_same _ _ _ _ H), H. cbn [fields].
        apply find_putField_other. cbn [index reparseFieldFromString
          parseFieldString parseField]. destruct Hne; congruence.
      * now rewrite nth_setAt_other.
    + intros Hr Hc Hu Hall. apply Forall_setAt; [exact Hall|]. cbn [fields].
      apply Forall_putField.
      * apply (Forall_forall (fun sg => Forall wellFormedField (fields sg))
                 (segments m)); [exact Hall|].
        apply nth_error_In with (n := Z.to_nat i). exact Hn.
      * now apply parseField_wellFormed.
  - exists m. unfold updateFieldFromString. rewrite H. repeat split.
    intros _ _ _ Hall. exact Hall.
Qed.

Lemma updateFieldFromString_frame_witness :
  exists m',
    updateFieldFromString (Some sampleParsed) 1 5 (str "DOE^JOHN") = Some m' /\
    Forall (fun sg => Forall wellFormedField (fields sg)) (segments m').
Proof.
  destruct (updateFieldFromString_frame sampleParsed 1 5 (str "DOE^JOHN"))
    as (m' & Hm' & _ & _ & _ & Hwf).
  exists m'. split; [exact Hm'|].
  apply Hwf; try discriminate.
  repeat constructor; discriminate.
Defined.

Lemma hasFieldChanged_same (a b : HL7Message) (i j : Z) :
  delimiters a = delimiters b ->
  getFieldValue (Some a) i j = getFieldValue (Some b) i j ->
  hasFieldChanged (Some a) (Some b) i j = false.
Proof.
  unfold getFieldValue, hasFieldChanged. intros Hd.
  destruct (JS.nth (segments a) i) as [sa|]; [|reflexivity].
  destruct (JS.nth (segments b) i) as [sb|]; [|reflexivity].
  intros <-. destruct (find _ (fields sa)); [|reflexivity].
  now rewrite Hd, jsstring_eqb_refl.
Qed.

(** After one [updateFieldFromString], [hasFieldChanged] against the
    message before can only report the edited cell; it reports it exactly
    when the field was absent or its display string differs from the text
    entered. *)
Theorem hasFieldChanged_after_edit (m : HL7Message) (seg : SegmentNode)
  (i j : Z) (s : jsstring) :
  JS.nth (segments m) i = Some seg ->
  let after := updateFieldFromString (Some m) i j s in
  (forall i' j',
      hasFieldChanged (Some m) after i' j' = true -> i' = i /\ j' = j) /\
  hasFieldChanged (Some m) after i j
  = match getFieldValue (Some m) i j with
    | Some f => negb (jsstring_eqb (getFieldDisplayString f (delimiters m)) s)
    | None => true
    end.
Proof.
  intros H after. split.
  - intros i' j' Hc.
    destruct (updateFieldFromString_keeps m i j s)
      as (m' & Hm' & Hd & Hframe).
    unfold after in Hc. rewrite Hm' in Hc.
    destruct (Z.eq_dec i' i) as [->|Hi]; [destruct (Z.eq_dec j' j) as [->|Hj]|].
    + now split.
    + rewrite hasFieldChanged_same in Hc;
        [discriminate | now symmetry | symmetry; apply Hframe; now right].
    + rewrite hasFieldChanged_same in Hc;
        [discriminate | now symmetry | symmetry; apply Hframe; now left].
  - unfold after. rewrite (updateFieldFromString_unfold m seg i j s H).
    unfold hasFieldChanged, getFieldValue. cbn [segments delimiters].
    rewrite (nth_setAt_same _ _ _ _ H), H. cbn [fields].
    pose proof (find_putField_same (fields seg)
                  (reparseFieldFromString s (delimiters m) j)) as Hp.
    change (index (reparseFieldFromString s (delimiters m) j)) with j in Hp.
    rewrite Hp.
    destruct (find _ (fields seg)) as [f|]; [|reflexivity].
    unfold reparseFieldFromString, parseFieldString, getFieldDisplayString.
    now rewrite serializeField_parseField.
Qed.

Lemma hasFieldChanged_after_edit_witness :
  hasFieldChanged (Some sampleParsed)
    (updateFieldFromString (Some sampleParsed) 1 1 (str "1")) 1 1
  = false.
Proof.
  apply (hasFieldChanged_after_edit sampleParsed
           {| name := str "PID"; fields := [ createSimpleField (str "1") 1 ] |}
           1 1 (str "1")).
  reflexivity.
Defined.

End FieldEdit.

Section LeafEdit.

Lemma padTo_app {A : Type} (x : A) (i : Z) (l : list A) :
  JS.padTo x i l
  = l ++ List.repeat x (Z.to_nat (i + 1 - Z.of_nat (List.length l))).
Proof.
  unfold JS.padTo.
  induction (Z.to_nat (i + 1 - Z.of_nat (List.length l))) as [|n IH].
  - simpl. now rewrite app_nil_r.
  - cbn [Nat.iter nat_rect]. unfold Nat.iter in IH. rewrite IH.
    rewrite <- app_assoc. f_equal. cbn [List.repeat]. symmetry.
    apply repeat_cons.
Qed.

Lemma padTo_nth {A : Type} (x : A) (i : Z) (l : list A) :
  0 <= i -> exists y, JS.nth (JS.padTo x i l) i = Some y.
Proof.
  intros Hi. apply nth_in_range; [assumption|].
  rewrite padTo_app, length_app, repeat_length. lia.
Qed.

Lemma Forall_padTo {A : Type} (P : A -> Prop) (x : A) (i : Z) (l : list A) :
  Forall P l -> P x -> Forall P (JS.padTo x i l).
Proof.
  intros Hl Hx. rewrite padTo_app. apply Forall_app. split; [assumption|].
  apply Forall_forall. intros y Hy. apply repeat_spec in Hy. now subst.
Qed.

Lemma setAt_nonempty {A : Type} (l : list A) (k : nat) (x : A) :
  l <> [] -> JS.setAt l k x <> [].
Proof. destruct l, k; simpl; congruence. Qed.

Lemma nth_nonempty {A : Type} (l : list A) (i : Z) (x : A) :
  JS.nth l i = Some x -> l <> [].
Proof. intros H ->. unfold JS.nth in H. destruct (i <? 0), (Z.to_nat i); discriminate. Qed.

Lemma nth_Forall {A : Type} (P : A -> Prop) (l : list A) (i : Z) (x : A) :
  Forall P l -> JS.nth l i = Some x -> P x.
Proof.
  intros Hl H. apply nth_inv in H as (_ & H & _).
  rewrite Forall_forall in Hl. apply Hl. eapply nth_error_In. exact H.
Qed.

(** A negative position makes [setLeaf] throw. *)
Lemma setLeaf_negative (f : FieldNode) (r c u : Z) (v : jsstring) :
  r < 0 \/ c < 0 \/ u < 0 -> setLeaf f r c u v = None.
Proof.
  intros H. unfold setLeaf.
  destruct (JS.nth (JS.padTo emptyRepeat r (repeats f)) r) as [rep|] eqn:Er;
    [|reflexivity].
  destruct (JS.nth (JS.padTo emptyComponent c (components rep)) c)
    as [comp|] eqn:Ec; [|reflexivity].
  destruct (JS.nth (JS.padTo {| value := [] |} u (subcomponents comp)) u)
    as [sub|] eqn:Eu; [|reflexivity].
  apply nth_inv in Er as (Hr & _). apply nth_inv in Ec as (Hc & _).
  apply nth_inv in Eu as (Hu & _). lia.
Qed.

(** With positions from 0 on it returns a field of the same index that
    holds the value at the position, and keeps the containers non-empty. *)
Lemma setLeaf_result (f : FieldNode) (r c u : Z) (v : jsstring) :
  0 <= r -> 0 <= c -> 0 <= u ->
  exists f' rep comp,
    setLeaf f r c u v = Some f' /\
    index f' = index f /\
    JS.nth (repeats f') r = Some rep /\
    JS.nth (components rep) c = Some comp /\
    JS.nth (subcomponents comp) u = Some {| value := v |} /\
    (wellFormedField f -> wellFormedField f').
Proof.
  intros Hr Hc Hu. unfold setLeaf.
  destruct (padTo_nth emptyRepeat r (repeats f) Hr) as [rep Er]. rewrite Er.
  destruct (padTo_nth emptyComponent c (components rep) Hc) as [comp Ec].
  rewrite Ec.
  destruct (padTo_nth {| value := [] |} u (subcomponents comp) Hu) as [sub Eu].
  rewrite Eu.
  eexists _, _, _. split; [reflexivity|]. cbn [index repeats].
  split; [reflexivity|].
  split; [exact (nth_setAt_same _ _ _ _ Er)|]. cbn [components].
  split; [exact (nth_setAt_same _ _ _ _ Ec)|]. cbn [subcomponents].
  split; [exact (nth_setAt_same _ _ _ _ Eu)|].
  intros [Hne Hwf]. split.
  - apply setAt_nonempty. now apply nth_nonempty in Er.
  - assert (Hpad : Forall wellFormedRepeat
                     (JS.padTo emptyRepeat r (repeats f))).
    { apply Forall_padTo; [exact Hwf|].
      split; [discriminate | repeat constructor; discriminate]. }
    apply Forall_setAt; [exact Hpad|]. cbn [components].
    destruct (nth_Forall _ _ _ _ Hpad Er) as [_ Hrep]. split.
    + apply setAt_nonempty. now apply nth_nonempty in Ec.
    + apply Forall_setAt.
      * apply Forall_padTo; [exact Hrep | discriminate].
      * cbn [subcomponents]. apply setAt_nonempty.
        now apply nth_nonempty in Eu.
Qed.

Lemma leaf_fields (fs : list FieldNode) (j : Z) (field' : FieldNode) :
  index field' = j ->
  find (fun f => index f =? j) (leafFields fs j field') = Some field' /\
  (forall j', j' <> j ->
              find (fun f => index f =? j') (leafFields fs j field')
              = find (fun f => index f =? j') fs) /\
  (forall P : FieldNode -> Prop,
      Forall P fs -> P (freshField j) -> P field' ->
      Forall P (leafFields fs j field')).
Proof.
  intros Hj. unfold leafFields.
  set (fields1 := match find (fun f => index f =? j) fs with
                  | Some _ => fs
                  | None => JS.sort index (fs ++ [freshField j])
                  end).
  assert (H1 : exists x, find (fun f => index f =? j) fields1 = Some x).
  { unfold fields1.
    destruct (find (fun f => index f =? j) fs) as [x|] eqn:E; [eauto|].
    exists (freshField j). rewrite find_key_sort, find_snoc, E.
    cbn [index freshField]. now rewrite Z.eqb_refl. }
  destruct H1 as [x Hx]. destruct (findIndex_found _ _ _ Hx) as (k & Ek & Hk).
  cbv zeta. rewrite Ek, Nat2Z.id. split; [|split].
  - apply find_setAt_first; [exact Hk | now apply Z.eqb_eq].
  - intros j' Hj'.
    rewrite (find_setAt_other (fun f => index f =? j)); [| exact Hk | |].
    + unfold fields1.
      destruct (find (fun f => index f =? j) fs); [reflexivity|].
      rewrite find_key_sort, find_snoc. cbn [index freshField].
      replace (j =? j') with false by (symmetry; apply Z.eqb_neq; lia).
      now destruct (find (fun f => index f =? j') fs).
    + apply Z.eqb_neq. lia.
    + intros y Hy. apply Z.eqb_eq in Hy. apply Z.eqb_neq. lia.
  - intros P Hfs Hfresh Hfield. apply Forall_setAt; [|exact Hfield].
    unfold fields1.
    destruct (find (fun f => index f =? j) fs); [exact Hfs|].
    eapply Permutation_Forall; [symmetry; apply sort_perm|].
    apply Forall_app. split; [exact Hfs | now constructor].
Qed.

Lemma updateLeafValue_unfold (m : HL7Message) (seg : SegmentNode)
  (i j r c u : Z) (v : jsstring) :
  JS.nth (segments m) i = Some seg ->
  updateLeafValue (Some m) i j r c u v
  = match setLeaf (fieldOrFresh (fields seg) j) r c u v with
    | None => Throws
    | Some field' =>
        Returns
          (Some {| delimiters := delimiters m;
                   segments :=
                     JS.setAt (segments m) (Z.to_nat i)
                       {| name := name seg;
                          fields := leafFields (fields seg) j field' |} |})
    end.
Proof.
  intros H. unfold updateLeafValue, fieldOrFresh, leafFields, freshField.
  rewrite H. now destruct (find (fun f => index f =? j) (fields seg)).
Qed.

Lemma index_fieldOrFresh (fs : list FieldNode) (j : Z) :
  index (fieldOrFresh fs j) = j.
Proof.
  unfold fieldOrFresh.
  destruct (find (fun f => index f =? j) fs) as [x|] eqn:E; [|reflexivity].
  apply find_some in E as [_ E]. now apply Z.eqb_eq in E.
Qed.

Lemma freshField_wellFormed (j : Z) : wellFormedField (freshField j).
Proof. split; [discriminate|]. repeat constructor; discriminate. Qed.

Lemma fieldOrFresh_wellFormed (fs : list FieldNode) (j : Z) :
  Forall wellFormedField fs -> wellFormedField (fieldOrFresh fs j).
Proof.
  intros H. unfold fieldOrFresh.
  destruct (find (fun f => index f =? j) fs) as [x|] eqn:E.
  - apply find_some in E as [Hin _]. rewrite Forall_forall in H. now apply H.
  - apply freshField_wellFormed.
Qed.

(** On an existing segment, [updateLeafValue] throws exactly when one of
    the repeat, component and subcomponent positions is negative. *)
Theorem updateLeafValue_throws (m : HL7Message) (seg : SegmentNode)
  (i j r c u : Z) (v : jsstring) :
  JS.nth (segments m) i = Some seg ->
  updateLeafValue (Some m) i j r c u v = Throws <-> r < 0 \/ c < 0 \/ u < 0.
Proof.
  intros H. rewrite (updateLeafValue_unfold m seg i j r c u v H). split.
  - intros Ht.
    destruct (Z.ltb_spec r 0) as [|Hr]; [now left|].
    destruct (Z.ltb_spec c 0) as [|Hc]; [now (right; left)|].
    destruct (Z.ltb_spec u 0) as [|Hu]; [now (right; right)|].
    exfalso. revert Ht.
    destruct (setLeaf_result (fieldOrFresh (fields seg) j) r c u v Hr Hc Hu)
      as (f' & rep & comp & -> & _).
    discriminate.
  - intros Hneg. now rewrite setLeaf_negative.
Qed.

Lemma updateLeafValue_throws_witness :
  updateLeafValue (Some sampleParsed) 1 1 (-1) 0 0 (str "x") = Throws.
Proof.
  apply (updateLeafValue_throws sampleParsed
           {| name := str "PID"; fields := [ createSimpleField (str "1") 1 ] |}
           1 1 (-1) 0 0 (str "x")); [reflexivity | left; lia].
Defined.

(** On an existing segment and with positions from 0 on,
    [updateLeafValue] returns a message in which the leaf at the edited
    position holds the value, for [getLeafValue] and for the leaf access of
    [hasLeafChanged]; it keeps the delimiters and the segment names, leaves
    the fields of every other index or segment as they are, and keeps the
    containers of every field non-empty when they were. *)
Theorem updateLeafValue_result (m : HL7Message) (seg : SegmentNode)
  (i j r c u : Z) (v : jsstring) :
  JS.nth (segments m) i = Some seg ->
  0 <= r -> 0 <= c -> 0 <= u ->
  exists m',
    updateLeafValue (Some m) i j r c u v = Returns (Some m') /\
    getLeafValue (Some m') i j r c u = v /\
    getLeaf m' i j r c u = Some v /\
    delimiters m' = delimiters m /\
    map name (segments m') = map name (segments m) /\
    (forall i' j',
        i' <> i \/ j' <> j ->
        getFieldValue (Some m') i' j' = getFieldValue (Some m) i' j') /\
    (Forall (fun s => Forall wellFormedField (fields s)) (segments m) ->
     Forall (fun s => Forall wellFormedField (fields s)) (segments m')).
Proof.
  intros H Hr Hc Hu. rewrite (updateLeafValue_unfold m seg i j r c u v H).
  destruct (setLeaf_result (fieldOrFresh (fields seg) j) r c u v Hr Hc Hu)
    as (f' & rep & comp & -> & Hidx & Hrep & Hcomp & Hsub & Hwf).
  rewrite index_fieldOrFresh in Hidx.
  destruct (leaf_fields (fields seg) j f' Hidx) as (Hsame & Hother & Hall).
  destruct (nth_inv _ _ _ H) as (Hi & Hn & _).
  eexists. split; [reflexivity|].
  split; [|split].
  { unfold getLeafValue, getFieldValue. cbn [segments].
    rewrite (nth_setAt_same _ _ _ _ H). cbn [fields].
    rewrite Hsame, Hrep, Hcomp, Hsub. reflexivity. }
  { unfold getLeaf. cbn [segments].
    rewrite (nth_setAt_same _ _ _ _ H). cbn [fields].
    rewrite Hsame, Hrep, Hcomp, Hsub. reflexivity. }
  cbn [delimiters segments]. split; [reflexivity|]. split; [|split].
  - now apply (map_setAt_same name _ _ _ seg).
  - intros i' j' Hne. unfold getFieldValue. cbn [segments].
    destruct (Z.eq_dec i' i) as [->|Hi'].
    + rewrite (nth_setAt_same _ _ _ _ H), H. cbn [fields].
      apply Hother. destruct Hne; congruence.
    + now rewrite nth_setAt_other.
  - intros Hall_wf. apply Forall_setAt; [exact Hall_wf|]. cbn [fields].
    pose proof (nth_Forall _ _ _ _ Hall_wf H) as Hseg. cbv beta in Hseg.
    apply Hall; [exact Hseg | apply freshField_wellFormed|].
    apply Hwf. now apply fieldOrFresh_wellFormed.
Qed.

Lemma updateLeafValue_result_witness :
  exists m',
    updateLeafValue (Some sampleParsed) 1 3 1 2 0 (str "x")
    = Returns (Some m') /\
    getLeafValue (Some m') 1 3 1 2 0 = str "x" /\
    getLeaf m' 1 3 1 2 0 = Some (str "x") /\
    delimiters m' = delimiters sampleParsed /\
    map name (segments m') = map name (segments sampleParsed) /\
    (forall i' j',
        i' <> 1 \/ j' <> 3 ->
        getFieldValue (Some m') i' j' = getFieldValue (Some sampleParsed) i' j') /\
    (Forall (fun s => Forall wellFormedField (fields s)) (segments sampleParsed) ->
     Forall (fun s => Forall wellFormedField (fields s)) (segments m')).
Proof.
  apply (updateLeafValue_result sampleParsed
           {| name := str "PID"; fields := [ createSimpleField (str "1") 1 ] |}
           1 3 1 2 0 (str "x")); [reflexivity | lia | lia | lia].
Defined.

End LeafEdit.
